(** * github-to-omnifocus: the reconciliation engine

    A shallow embedding of the Go sources of the repository
    (package [delta], [gh.GitHubItem], [omnifocus.Task] and [toSet] of
    [cmd/github2omnifocus]) together with the properties the specification
    states about them.

    Conventions.
    - A Go [string] is a sequence of bytes: Rocq's [string].
    - A Go [map[string]T] is a [gmap string T].  The order in which [range]
      enumerates a map is not specified by the language, so the embedding of
      a function that ranges over a map takes the enumeration as an extra
      argument, constrained to be a permutation of the entries.
    - An [iter.Seq[string]] that is consumed to the end is the list of the
      values it yields.
    - [strings.ToLower] is Unicode aware; the development is parametric in
      it.  [ToLower_ascii] is its behaviour on ASCII-only strings and is
      used for the concrete scenarios. *)

From Stdlib Require Import ZArith Ascii String.
From stdpp Require Import gmap strings list sorting fin_maps.

Local Open Scope Z_scope.

(** ** The parts of Go's standard library the program calls *)

Module slices.

(** [cmp.Compare] on strings: byte-wise lexicographic order. *)
Definition cmp_Compare (x y : string) : Z :=
  match String.compare x y with
  | Lt => -1
  | Eq => 0
  | Gt => 1
  end.

(** [slices.Compare]: the first non-zero element comparison decides; when
    one slice is a prefix of the other the shorter one is smaller. *)
Fixpoint Compare (s1 s2 : list string) : Z :=
  match s1, s2 with
  | [], [] => 0
  | [], _ :: _ => -1
  | _ :: _, [] => 1
  | v1 :: s1', v2 :: s2' =>
      let c := cmp_Compare v1 v2 in
      if decide (c ≠ 0) then c else Compare s1' s2'
  end.

(** [slices.Contains]: linear search with [==]. *)
Fixpoint Contains (s : list string) (v : string) : bool :=
  match s with
  | [] => false
  | x :: s' => if decide (v = x) then true else Contains s' v
  end.

(** [slices.Sorted]: collects the sequence and sorts it in ascending
    order.  For a total order without distinct equivalent elements the
    result does not depend on the sorting algorithm (see
    [Sorted_characterisation]); merge sort stands for Go's pdqsort. *)
Definition Sorted (seq : list string) : list string :=
  merge_sort String.le seq.

End slices.

Module strings.

(** Lower-casing of one ASCII byte: ['A'..'Z'] is shifted by
    ['a' - 'A'], every other byte is kept. *)
Definition lower_byte (c : ascii) : ascii :=
  let n := N_of_ascii c in
  if decide (65 <= n <= 90)%N then ascii_of_N (n + 32) else c.

(** [strings.ToLower] on a string with no byte above 0x7f (the
    [isASCII] path of the library function). *)
Fixpoint ToLower_ascii (s : string) : string :=
  match s with
  | EmptyString => EmptyString
  | String c s' => String (lower_byte c) (ToLower_ascii s')
  end.

(** [strings.Cut s sep] for a one-byte separator: the text before and
    after the first occurrence of [sep], if there is one. *)
Fixpoint cut_byte (sep : ascii) (s : string) : option (string * string) :=
  match s with
  | EmptyString => None
  | String c s' =>
      if decide (c = sep) then Some (EmptyString, s')
      else match cut_byte sep s' with
           | Some (before, after) => Some (String c before, after)
           | None => None
           end
  end.

(** [strings.SplitN s sep n] for a one-byte separator and [n >= 0]:
    at most [n] pieces, the last one being the unsplit remainder;
    [n = 0] gives the empty slice. *)
Fixpoint SplitN (s : string) (sep : ascii) (n : nat) : list string :=
  match n with
  | O => []
  | S O => [s]
  | S n' =>
      match cut_byte sep s with
      | Some (before, after) => before :: SplitN after sep n'
      | None => [s]
      end
  end.

End strings.

(** ** Package delta *)

(** [OperationType] states whether an operation is add or remove. *)
Inductive OperationType : Set :=
  | Add
  | Remove.

Global Instance OperationType_eq_dec : EqDecision OperationType.
Proof. solve_decision. Defined.

(** The constants are [iota + 1] and [iota + 2]. *)
Definition OperationType_int (op : OperationType) : Z :=
  match op with
  | Add => 1
  | Remove => 2
  end.

Definition OperationType_String (op : OperationType) : string :=
  match op with
  | Add => "add"
  | Remove => "remove"
  end.

(** [Keyed] provides the [Key] function which [Delta] uses to identify
    items uniquely, and the tags of the item. *)
Class Keyed (T : Type) := {
  Key : T → string;
  GetTags : T → list string;
}.

Section delta.

(** [strings.ToLower]. *)
Variable ToLower : string → string.

Context {D C : Type} `{!Keyed D, !Keyed C}.

(** The dynamic value behind the [Keyed] interface of an [Operation]:
    [Delta] stores either a desired item or a current item there. *)
Inductive Boxed : Type :=
  | OfDesired (v : D)
  | OfCurrent (c : C).

Global Instance Boxed_Keyed : Keyed Boxed := {|
  Key b := match b with OfDesired v => Key v | OfCurrent c => Key c end;
  GetTags b :=
    match b with OfDesired v => GetTags v | OfCurrent c => GetTags c end;
|}.

(** An [Operation] states that [Item] should be added or removed. *)
Record Operation : Type := MkOperation {
  Item : Boxed;
  OpType : OperationType;
}.

Definition deleteFunc (itr : list string) (del : string → bool)
  : list string :=
  List.filter (λ v, negb (del v)) itr.

Definition lower (itr : list string) : list string :=
  List.map ToLower itr.

Definition toLower (s : list string) : list string :=
  foldl (λ lowered v, lowered ++ [ToLower v]) [] s.

(** The tags of the current item as [Delta] compares them. *)
Definition cTags (ignoreTags : list string) (c : C) : list string :=
  slices.Sorted
    (deleteFunc (lower (GetTags c)) (λ s, slices.Contains ignoreTags s)).

(** The tags of the desired item as [Delta] compares them. *)
Definition vTags (v : D) : list string :=
  slices.Sorted (lower (GetTags v)).

(** Body of the loop over [desired]; [ignoreTags] is already lowered. *)
Definition desired_step (current : gmap string C)
    (ignoreTags : list string)
    (ops : list Operation) (kv : string * D) : list Operation :=
  let (k, v) := kv in
  match current !! k with
  | None => ops ++ [ {| OpType := Add; Item := OfDesired v |} ]
  | Some c =>
      if decide (slices.Compare (vTags v) (cTags ignoreTags c) ≠ 0) then
        ops ++ [ {| OpType := Remove; Item := OfCurrent c |};
                 {| OpType := Add; Item := OfDesired v |} ]
      else ops
  end.

(** Body of the loop over [current]. *)
Definition current_step (desired : gmap string D)
    (ops : list Operation) (kv : string * C) : list Operation :=
  let (k, v) := kv in
  match desired !! k with
  | None => ops ++ [ {| OpType := Remove; Item := OfCurrent v |} ]
  | Some _ => ops
  end.

(** [Delta] returns the operations that, when applied to [current], make
    it contain the same items as [desired].  [drange] and [crange] are
    the orders in which the two [range] loops enumerate the maps. *)
Definition Delta (drange : list (string * D)) (crange : list (string * C))
    (desired : gmap string D) (current : gmap string C)
    (ignoreTags : list string) : list Operation :=
  let ops := [] in
  let ignoreTags := toLower ignoreTags in
  let ops := foldl (desired_step current ignoreTags) ops drange in
  let ops := foldl (current_step desired) ops crange in
  ops.

(** [ops] is a possible result of the call
    [Delta(desired, current, ignoreTags)]. *)
Definition Delta_returns (desired : gmap string D)
    (current : gmap string C) (ignoreTags : list string)
    (ops : list Operation) : Prop :=
  ∃ drange crange,
    drange ≡ₚ map_to_list desired ∧
    crange ≡ₚ map_to_list current ∧
    ops = Delta drange crange desired current ignoreTags.

End delta.

Arguments Boxed : clear implicits.
Arguments Operation : clear implicits.

(** ** Applying operations

    The specification states what the operations mean for the collection
    they are applied to: [Add] inserts the item under the item's key,
    [Remove] deletes the item's key.  The collection then holds items of
    both origins. *)

Section apply.

Variable ToLower : string → string.

Context {D C : Type} `{!Keyed D, !Keyed C}.

Definition apply_op (m : gmap string (Boxed D C)) (op : Operation D C)
  : gmap string (Boxed D C) :=
  match OpType op with
  | Add => <[Key (Item op) := Item op]> m
  | Remove => delete (Key (Item op)) m
  end.

Definition apply_ops (m : gmap string (Boxed D C))
    (ops : list (Operation D C)) : gmap string (Boxed D C) :=
  foldl apply_op m ops.

(** [current] before any operation is applied. *)
Definition initial (current : gmap string C) : gmap string (Boxed D C) :=
  OfCurrent <$> current.

(** The tags of an entry of the collection the operations were applied
    to, normalised as [Delta] normalises the tags of a current item,
    which is what the entry is from then on: lower-cased, without the
    tags of the ignore list. *)
Definition normalized (ignoreTags : list string) (b : Boxed D C)
  : list string :=
  cTags ToLower (toLower ToLower ignoreTags) b.

(** The operations of [ops] whose item has key [k]. *)
Definition ops_for (k : string) (ops : list (Operation D C))
  : list (Operation D C) :=
  List.filter (λ op, bool_decide (Key (Item op) = k)) ops.

(** Every entry of the map is stored under its own key, as in the maps
    [toSet] builds. *)
Definition keyed_by_Key {T : Type} `{!Keyed T} (m : gmap string T) : Prop :=
  ∀ k x, m !! k = Some x → Key x = k.

End apply.

(** ** Package delta, as committed in [internal/delta/delta.go]

    The first version of [Delta] looks at membership only. *)

Module membership.
Section membership.

Context {D C : Type} `{!Keyed D, !Keyed C}.

Definition desired_step (current : gmap string C)
    (ops : list (Operation D C)) (kv : string * D) : list (Operation D C) :=
  let (k, v) := kv in
  match current !! k with
  | None => ops ++ [ {| OpType := Add; Item := OfDesired v |} ]
  | Some _ => ops
  end.

Definition Delta (drange : list (string * D)) (crange : list (string * C))
    (desired : gmap string D) (current : gmap string C)
  : list (Operation D C) :=
  let ops := [] in
  let ops := foldl (desired_step current) ops drange in
  let ops := foldl (current_step desired) ops crange in
  ops.

Definition Delta_returns (desired : gmap string D)
    (current : gmap string C) (ops : list (Operation D C)) : Prop :=
  ∃ drange crange,
    drange ≡ₚ map_to_list desired ∧
    crange ≡ₚ map_to_list current ∧
    ops = Delta drange crange desired current.

End membership.
End membership.

(** ** Package gh *)

Module gh.

(** [GitHubItem] is the unified structure for issues, PRs and
    notifications. *)
Record GitHubItem : Type := MkGitHubItem {
  Title : string;
  HTMLURL : string;
  APIURL : string;
  K : string;
  Labels : list string;
  Repo : string;
  ID : string;
  Milestone : string;
}.

(** [fmt.Sprintf("milestone: %s", m)]. *)
Definition Sprintf_milestone (m : string) : string :=
  "milestone: " +:+ m.

Definition GetTags (item : GitHubItem) : list string :=
  if decide (Milestone item ≠ "") then
    Labels item ++ [Repo item; Sprintf_milestone (Milestone item)]
  else
    Labels item ++ [Repo item].

Definition Key (item : GitHubItem) : string := K item.

End gh.

Global Instance GitHubItem_Keyed : Keyed gh.GitHubItem :=
  {| Key := gh.Key; GetTags := gh.GetTags |}.

(** ** Package omnifocus *)

Module omnifocus.

(** [Task] represents a task existing in Omnifocus. *)
Record Task : Type := MkTask {
  ID : string;
  Name : string;
  Completed : bool;
  Tags : list string;
}.

(** The expression [strings.SplitN(t.Name, " ", 2)[0]]; indexing a slice
    out of its range panics, which is [None] here. *)
Definition Key_indexed (t : Task) : option string :=
  strings.SplitN (Name t) " "%char 2 !! 0%nat.

Definition Key (t : Task) : string :=
  default "" (Key_indexed t).

Definition GetTags (t : Task) : list string := Tags t.

End omnifocus.

Global Instance Task_Keyed : Keyed omnifocus.Task :=
  {| Key := omnifocus.Key; GetTags := omnifocus.GetTags |}.

(** ** Command github2omnifocus *)

(** [toSet] keys the elements of a slice by their [Key]. *)
Definition toSet {T : Type} `{!Keyed T} (l : list T) : gmap string T :=
  let r := ∅ in
  foldl (λ r elem, <[Key elem := elem]> r) r l.

(** ** Auxiliary definitions for the statements *)

Section emitted.

Variable ToLower : string → string.

Context {D C : Type} `{!Keyed D, !Keyed C}.

(** What one iteration of each loop of [Delta] appends. *)
Definition desired_ops (current : gmap string C) (ignoreTags : list string)
    (kv : string * D) : list (Operation D C) :=
  desired_step ToLower current ignoreTags [] kv.

Definition current_ops (desired : gmap string D) (kv : string * C)
  : list (Operation D C) :=
  current_step desired [] kv.

(** The same for the first loop of the membership-only [Delta]. *)
Definition membership_ops (current : gmap string C) (kv : string * D)
  : list (Operation D C) :=
  membership.desired_step current [] kv.

(** The normalised tags of [v] and [c] taken as sets: duplicates are
    forgotten. *)
Definition tag_sets_equal (ignoreTags : list string) (v : D) (c : C)
  : Prop :=
  list_to_set (C := gset string) (lower ToLower (GetTags v)) =
  list_to_set (C := gset string)
    (deleteFunc (lower ToLower (GetTags c))
       (λ s, slices.Contains (toLower ToLower ignoreTags) s)).

(** The normalised tags of [v] and [c] taken as multisets: duplicates
    count. *)
Definition tag_multisets_equal (ignoreTags : list string) (v : D) (c : C)
  : Prop :=
  lower ToLower (GetTags v) ≡ₚ
  deleteFunc (lower ToLower (GetTags c))
    (λ s, slices.Contains (toLower ToLower ignoreTags) s).

(** "No spurious operations" read with tag sets. *)
Definition no_spurious_ops_on_equal_sets (desired : gmap string D)
    (current : gmap string C) (ignoreTags : list string) : Prop :=
  dom desired = dom current →
  (∀ k v c, desired !! k = Some v → current !! k = Some c →
            tag_sets_equal ignoreTags v c) →
  ∀ ops, Delta_returns ToLower desired current ignoreTags ops → ops = [].

(** "Convergence" for one input: whatever [Delta] returns, applying it
    to [current] gives a collection with the keys of [desired] whose
    entries have, normalised, the tag sets of the desired items. *)
Definition converges_to_desired_tags (desired : gmap string D)
    (current : gmap string C) (ignoreTags : list string) : Prop :=
  ∀ ops, Delta_returns ToLower desired current ignoreTags ops →
    dom (apply_ops (initial current) ops) = dom desired ∧
    ∀ k v, desired !! k = Some v →
      ∃ b, apply_ops (initial current) ops !! k = Some b ∧
           list_to_set (C := gset string) (normalized ToLower ignoreTags b)
           = list_to_set (C := gset string) (lower ToLower (GetTags v)).

(** The state an entry is in after the operations [ops] on its key. *)
Definition replay (start : option (Boxed D C)) (ops : list (Operation D C))
  : option (Boxed D C) :=
  foldl (λ _ op, match OpType op with
                 | Add => Some (Item op)
                 | Remove => None
                 end) start ops.

End emitted.

(** [s] has no byte [sep]. *)
Fixpoint free_of (sep : ascii) (s : string) : Prop :=
  match s with
  | EmptyString => True
  | String c s' => c ≠ sep ∧ free_of sep s'
  end.

(** Items and tasks of the scenarios of the specification. *)
Module scenario.

Definition item (key : string) (labels : list string) (repo : string)
  : gh.GitHubItem :=
  {| gh.Title := "title"; gh.HTMLURL := ""; gh.APIURL := ""; gh.K := key;
     gh.Labels := labels; gh.Repo := repo; gh.ID := "";
     gh.Milestone := "" |}.

Definition task (name : string) (tags : list string) : omnifocus.Task :=
  {| omnifocus.ID := "id"; omnifocus.Name := name;
     omnifocus.Completed := false; omnifocus.Tags := tags |}.

Definition Op (t : OperationType)
    (b : Boxed gh.GitHubItem omnifocus.Task)
  : Operation gh.GitHubItem omnifocus.Task :=
  {| OpType := t; Item := b |}.

(** One enumeration order of the maps, for running [Delta]. *)
Definition run (desired : gmap string gh.GitHubItem)
    (current : gmap string omnifocus.Task) (ignoreTags : list string)
  : list (Operation gh.GitHubItem omnifocus.Task) :=
  Delta strings.ToLower_ascii (map_to_list desired) (map_to_list current)
    desired current ignoreTags.

Definition run_membership (desired : gmap string gh.GitHubItem)
    (current : gmap string omnifocus.Task)
  : list (Operation gh.GitHubItem omnifocus.Task) :=
  membership.Delta (map_to_list desired) (map_to_list current)
    desired current.

(** Issue 1 of repository a/b, with its label written in three ways. *)
Definition issue1 : gh.GitHubItem := item "a/b#1" ["bug"] "a/b".
Definition issue1_Bug : gh.GitHubItem := item "a/b#1" ["Bug"] "a/b".
Definition issue1_urgent : gh.GitHubItem := item "a/b#1" ["urgent"] "a/b".
Definition issue1_twice : gh.GitHubItem :=
  item "a/b#1" ["bug"; "Bug"] "a/b".
Definition issue1_assigned : gh.GitHubItem :=
  item "a/b#1" ["bug"; "assigned"] "a/b".
Definition issue3 : gh.GitHubItem := item "a/b#3" [] "a/b".

(** The tasks of issues 1 and 2. *)
Definition task1 : omnifocus.Task := task "a/b#1 Fix it" ["bug"; "a/b"].
Definition task1_assigned : omnifocus.Task :=
  task "a/b#1 Fix it" ["bug"; "A/B"; "Assigned"].
Definition task1_later : omnifocus.Task :=
  task "a/b#1 Fix it later" ["a/b"].
Definition task2 : omnifocus.Task := task "a/b#2 Old" ["a/b"].
Definition task_unkeyed : omnifocus.Task := task "unkeyed" [].

(** An item with a milestone. *)
Definition issue4 : gh.GitHubItem :=
  {| gh.Title := "title"; gh.HTMLURL := ""; gh.APIURL := "";
     gh.K := "a/b#4"; gh.Labels := ["bug"; "Bug"]; gh.Repo := "a/b";
     gh.ID := ""; gh.Milestone := "v1" |}.

(** Issue 1 changed and issue 3 new on the desired side; issue 2 gone. *)
Definition desired_two : gmap string gh.GitHubItem :=
  toSet [issue1_urgent; issue3].
Definition current_two : gmap string omnifocus.Task :=
  toSet [task1; task2].

End scenario.

(** * The rest of the program *)

From Stdlib Require Import DecimalString.

(** ** Package delta, with exact tag comparison

    The second version of [Delta] compares the sorted tags as they are:
    no lower-casing, no ignore list. *)

Module exact_tags.
Section exact_tags.

Context {D C : Type} `{!Keyed D, !Keyed C}.

Definition desired_step (current : gmap string C)
    (ops : list (Operation D C)) (kv : string * D) : list (Operation D C) :=
  let (k, v) := kv in
  match current !! k with
  | None => ops ++ [ {| OpType := Add; Item := OfDesired v |} ]
  | Some c =>
      let vTags := slices.Sorted (GetTags v) in
      let cTags := slices.Sorted (GetTags c) in
      if decide (slices.Compare vTags cTags ≠ 0) then
        ops ++ [ {| OpType := Remove; Item := OfCurrent c |};
                 {| OpType := Add; Item := OfDesired v |} ]
      else ops
  end.

Definition Delta (drange : list (string * D)) (crange : list (string * C))
    (desired : gmap string D) (current : gmap string C)
  : list (Operation D C) :=
  let ops := [] in
  let ops := foldl (desired_step current) ops drange in
  let ops := foldl (current_step desired) ops crange in
  ops.

Definition Delta_returns (desired : gmap string D)
    (current : gmap string C) (ops : list (Operation D C)) : Prop :=
  ∃ drange crange,
    drange ≡ₚ map_to_list desired ∧
    crange ≡ₚ map_to_list current ∧
    ops = Delta drange crange desired current.

End exact_tags.
End exact_tags.

(** ** More of Go's standard library *)

Module strconv.

(** The value of a decimal digit. *)
Definition digit (c : ascii) : option Z :=
  let n := Z.of_N (N_of_ascii c) in
  if decide (48 ≤ n ≤ 57) then Some (n - 48) else None.

Fixpoint digits (n : Z) (s : string) : option Z :=
  match s with
  | EmptyString => Some n
  | String c s' =>
      match digit c with
      | Some d => digits (n * 10 + d) s'
      | None => None
      end
  end.

(** [strconv.Atoi] on a 64-bit platform: an optional sign and at least one
    decimal digit, the value within the range of [int]; [None] is the
    error result. *)
Definition Atoi (s : string) : option Z :=
  match s with
  | EmptyString => None
  | String c rest =>
      let s1 := if decide (c = "-"%char ∨ c = "+"%char) then rest else s in
      match s1 with
      | EmptyString => None
      | _ =>
          match digits 0 s1 with
          | Some n =>
              let v := if decide (c = "-"%char) then - n else n in
              if decide (- 2 ^ 63 ≤ v < 2 ^ 63) then Some v else None
          | None => None
          end
      end
  end.

End strconv.

Module gostrings.

(** [strings.HasSuffix]. *)
Definition HasSuffix (s suffix : string) : bool :=
  bool_decide (String.length suffix ≤ String.length s)%nat &&
  bool_decide
    (substring (String.length s - String.length suffix)
       (String.length suffix) s = suffix).

(** The slice expressions [s[i:]] and [s[:i]]; out of range they panic,
    which is [None]. *)
Definition slice_from (s : string) (i : Z) : option string :=
  if decide (0 ≤ i ≤ Z.of_nat (String.length s)) then
    Some (substring (Z.to_nat i) (String.length s - Z.to_nat i) s)
  else None.

Definition slice_to (s : string) (i : Z) : option string :=
  if decide (0 ≤ i ≤ Z.of_nat (String.length s)) then
    Some (substring 0 (Z.to_nat i) s)
  else None.

(** [strings.Split s sep] for a one-byte separator: the pieces between
    the separators, one more than there are separators. *)
Fixpoint Split (s : string) (sep : ascii) : list string :=
  match s with
  | EmptyString => [EmptyString]
  | String c s' =>
      if decide (c = sep) then EmptyString :: Split s' sep
      else match Split s' sep with
           | piece :: pieces => String c piece :: pieces
           | [] => [String c EmptyString]
           end
  end.

(** The index expression [a[i]] on a slice; out of range it panics, which
    is [None]. *)
Definition index {A : Type} (a : list A) (i : Z) : option A :=
  if decide (0 ≤ i) then a !! Z.to_nat i else None.

End gostrings.

(** Arithmetic of Go's [int] on a 64-bit platform. *)
Definition wrap_int (z : Z) : Z :=
  (z + 2 ^ 63) `mod` 2 ^ 64 - 2 ^ 63.

(** ** Package omnifocus: the gateway *)

Module gateway.

(** [NewOmnifocusTask] defines a request to create a new task. *)
Record NewOmnifocusTask : Type := MkNewOmnifocusTask {
  ProjectName : string;
  Name : string;
  Tags : list string;
  Note : string;
  DueDateMS : Z;
}.

(** [DueDate] is a [time.Time]; the program only reads its
    [UnixMilli()], which is what the field holds here. *)
Record Gateway : Type := MkGateway {
  AppTag : string;
  AssignedTag : string;
  AssignedProject : string;
  ReviewTag : string;
  ReviewProject : string;
  NotificationTag : string;
  NotificationsProject : string;
  SetNotificationsDueDate : bool;
  SetTaskmasterDueDate : bool;
  TaskMasterTaskTag : string;
  DueDate : Z;
  PendingChangesProject : string;
  PendingChangesTag : string;
}.

(** The errors of [deadline] and [getEndOfTimePeriod]. *)
Inductive error : Set :=
  | ErrAtoi
  | ErrTimeIncrement
  | ErrNoDeadline.

Section gateway.

(** [strings.EqualFold]. *)
Variable EqualFold : string → string → bool.

(** [time.Now().Year()]. *)
Variable Year : Z.

(** [time.Date(year, month, day, hour, min, sec, nsec,
    time.Local).UnixMilli()]. *)
Variable Date : Z → Z → Z → Z → Z → Z → Z → Z.

Definition isTaskMasterTask (og : Gateway) (task : NewOmnifocusTask) : bool :=
  existsb (λ tag, EqualFold tag (TaskMasterTaskTag og)) (Tags task).

Definition priorityOrderSuffix : list string := ["H"; "Q"; "W"].

Definition arrowMonthAbbrv : list string :=
  ["Jan"; "Feb"; "Mar"; "Apr"; "May"; "Jun";
   "Jul"; "Aug"; "Sep"; "Oct"; "Nov"; "Dec"].

Definition isTimeRange (tag : string) : bool :=
  existsb (λ suffix, gostrings.HasSuffix tag suffix) priorityOrderSuffix.

(** The loop of [isMonth] from index [idx] on. *)
Fixpoint isMonth_from (idx : Z) (months : list string) (tag : string)
  : bool * Z :=
  match months with
  | [] => (false, 1)
  | month :: months' =>
      if EqualFold month tag then (true, idx)
      else isMonth_from (idx + 1) months' tag
  end.

Definition isMonth (tag : string) : bool * Z :=
  isMonth_from 0 arrowMonthAbbrv tag.

(** [None] is a panic of a slice expression. *)
Definition getEndOfTimePeriod (period : string) : option (error + Z) :=
  let len := Z.of_nat (String.length period) in
  match gostrings.slice_from period (len - 1),
        gostrings.slice_to period (len - 1) with
  | Some suffix, Some head =>
      match strconv.Atoi head with
      | None => Some (inl ErrAtoi)
      | Some num =>
          if decide (suffix = "H") then
            let month := wrap_int (wrap_int (6 * num) + 1) in
            Some (inr (Date Year month 1 (-1) (-1) (-1) (-1)))
          else if decide (suffix = "Q") then
            let month := wrap_int (wrap_int (3 * num) + 1) in
            Some (inr (Date Year month 1 (-1) (-1) (-1) (-1)))
          else if decide (suffix = "W") then
            let day := wrap_int (wrap_int (7 * num) + 1) in
            Some (inr (Date Year 1 day (-1) (-1) (-1) (-1)))
          else Some (inl ErrTimeIncrement)
      end
  | _, _ => None
  end.

Definition getEndOfMonth (month : Z) : Z :=
  Date Year (month + 1) 1 (-1) (-1) (-1) (-1).

Fixpoint deadline (tags : list string) : option (error + Z) :=
  match tags with
  | [] => Some (inl ErrNoDeadline)
  | tag :: tags' =>
      if isTimeRange tag then getEndOfTimePeriod tag
      else
        let (res, month) := isMonth tag in
        if res then Some (inr (getEndOfMonth month))
        else deadline tags'
  end.

(** The request [AddIssue] hands to [AddNewOmnifocusTask]; [None] is a
    panic. *)
Definition AddIssue (og : Gateway) (t : gh.GitHubItem)
  : option NewOmnifocusTask :=
  let tags := [AppTag og; AssignedTag og; gh.Repo t] in
  let tags := tags ++ gh.Labels t in
  let tags :=
    if decide (gh.Milestone t ≠ "") then
      tags ++ [gh.Sprintf_milestone (gh.Milestone t)]
    else tags in
  let task :=
    {| ProjectName := AssignedProject og;
       Name := gh.Key t +:+ " " +:+ gh.Title t;
       Tags := tags;
       Note := gh.HTMLURL t;
       DueDateMS := 0 |} in
  if SetTaskmasterDueDate og && isTaskMasterTask og task then
    match deadline tags with
    | None => None
    | Some (inr ms) =>
        Some {| ProjectName := ProjectName task; Name := Name task;
                Tags := Tags task; Note := Note task; DueDateMS := ms |}
    | Some (inl _) => Some task
    end
  else Some task.

End gateway.

(** A tag that [deadline] passes over: neither a time range nor a
    month. *)
Definition passed_over (EqualFold : string → string → bool) (tag : string)
  : Prop :=
  isTimeRange tag = false ∧ (isMonth EqualFold tag).1 = false.

(** The request [AddPR] hands to [AddNewOmnifocusTask]. *)
Definition AddPR (og : Gateway) (t : gh.GitHubItem) : NewOmnifocusTask :=
  let tags := [AppTag og; ReviewTag og] in
  let tags := tags ++ gh.Labels t in
  let tags := tags ++ [gh.Repo t] in
  {| ProjectName := ReviewProject og;
     Name := gh.Key t +:+ " " +:+ gh.Title t;
     Tags := tags;
     Note := gh.HTMLURL t;
     DueDateMS := 0 |}.

Definition AddAuthoredPR (og : Gateway) (t : gh.GitHubItem)
  : NewOmnifocusTask :=
  let tags := [AppTag og; PendingChangesTag og] in
  let tags := tags ++ gh.Labels t in
  let tags := tags ++ [gh.Repo t] in
  {| ProjectName := PendingChangesProject og;
     Tags := tags;
     Name := gh.Key t +:+ " " +:+ gh.Title t;
     Note := gh.HTMLURL t;
     DueDateMS := 0 |}.

Definition AddNotification (og : Gateway) (t : gh.GitHubItem)
  : NewOmnifocusTask :=
  let newT :=
    {| ProjectName := NotificationsProject og;
       Name := gh.Key t +:+ " " +:+ gh.Title t;
       Tags := [AppTag og; NotificationTag og; gh.Repo t];
       Note := gh.HTMLURL t;
       DueDateMS := 0 |} in
  if SetNotificationsDueDate og then
    {| ProjectName := ProjectName newT; Name := Name newT;
       Tags := Tags newT; Note := Note newT; DueDateMS := DueDate og |}
  else newT.

End gateway.

(** [x] is, up to case, an entry of the ignore list. *)
Definition on_ignore_list (ToLower : string → string) (ign : list string)
    (x : string) : Prop :=
  ToLower x ∈ toLower ToLower ign.

(** ** The GitHub client library: what the program reads of its types *)

Module github.

(** A [*string] field or a [*Label] is [None] when it is [nil]; the
    getters give the empty string for a missing value. *)
Record Issue : Type := MkIssue {
  Title : string;
  HTMLURL : string;
  URL : string;
  Repository_FullName : string;
  Number : Z;
  Labels : list (option string);
  Milestone_Title : string;
}.

Record Notification : Type := MkNotification {
  ID : option string;
  Subject_URL : string;
  Subject_LatestCommentURL : string;
  Subject_Title : string;
  Notification_Repository_FullName : string;
}.

End github.

(** ** Package gh: from GitHub objects to items *)

Module ghg.

(** [fmt.Sprintf] with the verb [%d]. *)
Definition Sprintf_d (n : Z) : string :=
  DecimalString.NilZero.string_of_int (Z.to_int n).

(** [fmt.Sprintf("%s#%d", name, number)]. *)
Definition Sprintf_issue_key (name : string) (number : Z) : string :=
  name +:+ "#" +:+ Sprintf_d number.

(** [fmt.Sprintf("%s/%s#%s", owner, repo, subjectID)]. *)
Definition Sprintf_subject_key (owner repo subjectID : string) : string :=
  owner +:+ "/" +:+ repo +:+ "#" +:+ subjectID.

(** How a loop over GitHub objects ends. *)
Inductive outcome (A : Type) : Type :=
  | Panic
  | Failed (e : string)
  | Done (a : A).

Arguments Panic {A}.
Arguments Failed {A} e.
Arguments Done {A} a.

(** The answer to the request for the page of a comment or an issue. *)
Inductive response : Set :=
  | RequestError
  | DoError
  | Fetched (html_url : string).

(** The loop that collects the label names; dereferencing a [nil] name
    panics, which is [None]. *)
Fixpoint label_names (labels : list string) (ls : list (option string))
  : option (list string) :=
  match ls with
  | [] => Some labels
  | Some name :: ls' => label_names (labels ++ [name]) ls'
  | None :: _ => None
  end.

Section transform.

(** [strings.TrimSpace]. *)
Variable TrimSpace : string → string.

(** [ghg.c.NewRequest] followed by [ghg.c.Do] on an API URL. *)
Variable fetch : string → response.

(** The loop body of the second half of [GetIssues]. *)
Definition issue_step (items : list gh.GitHubItem) (issue : github.Issue)
  : option (list gh.GitHubItem) :=
  match label_names [] (github.Labels issue) with
  | None => None
  | Some labels =>
      let item :=
        {| gh.Title := TrimSpace (github.Title issue);
           gh.HTMLURL := github.HTMLURL issue;
           gh.APIURL := github.URL issue;
           gh.K := Sprintf_issue_key (github.Repository_FullName issue)
                     (github.Number issue);
           gh.Labels := labels;
           gh.Repo := github.Repository_FullName issue;
           gh.ID := "";
           gh.Milestone := github.Milestone_Title issue |} in
      Some (items ++ [item])
  end.

(** The loop body of the second half of [getPRs]. *)
Definition pr_step (items : list gh.GitHubItem) (issue : github.Issue)
  : option (list gh.GitHubItem) :=
  match label_names [] (github.Labels issue) with
  | None => None
  | Some labels =>
      let item :=
        {| gh.Title := TrimSpace (github.Title issue);
           gh.HTMLURL := github.HTMLURL issue;
           gh.APIURL := github.URL issue;
           gh.K := Sprintf_issue_key (github.Repository_FullName issue)
                     (github.Number issue);
           gh.Labels := labels;
           gh.Repo := github.Repository_FullName issue;
           gh.ID := "";
           gh.Milestone := "" |} in
      Some (items ++ [item])
  end.

(** A loop of steps that may panic. *)
Definition loop_items {A : Type}
    (step : list gh.GitHubItem → A → option (list gh.GitHubItem))
    (l : list A) : option (list gh.GitHubItem) :=
  foldl (λ acc x, match acc with
                  | Some items => step items x
                  | None => None
                  end) (Some []) l.

(** [GetIssues] and [getPRs] once the pages are retrieved. *)
Definition GetIssues_items (issues : list github.Issue)
  : option (list gh.GitHubItem) :=
  loop_items issue_step issues.

Definition getPRs_items (issues : list github.Issue)
  : option (list gh.GitHubItem) :=
  loop_items pr_step issues.

(** The last four parts of the subject URL of a notification; [None] is
    the panic of an index out of range. *)
Definition subject_parts (url : string)
  : option (string * string * string * string) :=
  let parts := gostrings.Split url "/" in
  let lp := Z.of_nat (length parts) in
  match gostrings.index parts (lp - 4), gostrings.index parts (lp - 3),
        gostrings.index parts (lp - 2), gostrings.index parts (lp - 1) with
  | Some owner, Some repo, Some urlType, Some subjectID =>
      Some (owner, repo, urlType, subjectID)
  | _, _, _, _ => None
  end.

(** The loop body of the second half of [GetNotifications]. *)
Definition notification_step (items : list gh.GitHubItem)
    (notification : github.Notification) : outcome (list gh.GitHubItem) :=
  match subject_parts (github.Subject_URL notification) with
  | None => Panic
  | Some (owner, repo, urlType, subjectID) =>
      if negb (bool_decide (urlType = "issues")
               || bool_decide (urlType = "commits")
               || bool_decide (urlType = "pulls")) then
        Done items
      else
        let target :=
          if decide (github.Subject_LatestCommentURL notification ≠ "") then
            github.Subject_LatestCommentURL notification
          else github.Subject_URL notification in
        match fetch target with
        | RequestError =>
            Failed "error creating request for notification's issue or comment"
        | DoError =>
            Failed "error retrieving notification's issue or comment"
        | Fetched htmlURL =>
            match github.ID notification with
            | None => Panic
            | Some id =>
                let item :=
                  {| gh.Title :=
                       TrimSpace (github.Subject_Title notification);
                     gh.HTMLURL := htmlURL;
                     gh.APIURL := github.Subject_URL notification;
                     gh.K := Sprintf_subject_key owner repo subjectID;
                     gh.Labels := [];
                     gh.Repo :=
                       github.Notification_Repository_FullName notification;
                     gh.ID := id;
                     gh.Milestone := "" |} in
                Done (items ++ [item])
            end
        end
  end.

(** [GetNotifications] once the pages are retrieved. *)
Definition GetNotifications_items (notifications : list github.Notification)
  : outcome (list gh.GitHubItem) :=
  foldl (λ acc n, match acc with
                  | Done items => notification_step items n
                  | other => other
                  end) (Done []) notifications.

End transform.

(** The number of bytes [sep] in [s]. *)
Fixpoint count_byte (sep : ascii) (s : string) : nat :=
  match s with
  | EmptyString => O
  | String c s' => (if decide (c = sep) then 1 else 0) + count_byte sep s'
  end.

End ghg.

(** ** The script that lists the tasks of a project

    [oftasksforprojectwithtag.js], from the point where the project and
    the tags of the query are resolved. *)

Module jxa.

(** A tag of Omnifocus: what [tag.id()] and [tag.name()] give. *)
Record Tag : Type := MkTag {
  tag_id : string;
  tag_name : string;
}.

(** A task of Omnifocus: what [id()], [name()], [completed()], [tags()]
    and [tasks()] give. *)
#[local] Unset Elimination Schemes.
Inductive Task : Type :=
  | MkTask (id name : string) (completed : bool) (tags : list Tag)
      (tasks : list Task).
#[local] Set Elimination Schemes.

Definition id (t : Task) : string :=
  match t with MkTask i _ _ _ _ => i end.
Definition name (t : Task) : string :=
  match t with MkTask _ n _ _ _ => n end.
Definition completed (t : Task) : bool :=
  match t with MkTask _ _ c _ _ => c end.
Definition tags (t : Task) : list Tag :=
  match t with MkTask _ _ _ ts _ => ts end.
Definition tasks (t : Task) : list Task :=
  match t with MkTask _ _ _ _ ts => ts end.

(** [all_tasks] starts as the child tasks and grows by the child tasks of
    each child, in the order of [forEach]. *)
Fixpoint getChildTasks (parent : Task) : list Task :=
  match parent with
  | MkTask _ _ _ _ children =>
      (fix forEach (all_tasks : list Task) (ts : list Task) : list Task :=
         match ts with
         | [] => all_tasks
         | t :: ts' => forEach (all_tasks ++ getChildTasks t) ts'
         end) children children
  end.

(** The tasks of the project and, after them, their descendants. *)
Definition project_tasks (top : list Task) : list Task :=
  foldl (λ tasks task, tasks ++ getChildTasks task) top top.

(** The second filter: the task must have all tags of the query. *)
Definition has_all_tags (ofTags : list Tag) (task : Task) : bool :=
  forallb (λ ofTag,
             existsb (λ tag, bool_decide (tag_id tag = tag_id ofTag))
               (tags task))
    ofTags.

(** The object the script returns for a task, as the Go side decodes
    it. *)
Definition record (task : Task) : omnifocus.Task :=
  {| omnifocus.ID := id task;
     omnifocus.Name := name task;
     omnifocus.Completed := completed task;
     omnifocus.Tags := tag_name <$> tags task |}.

(** [tasksForProjectWithTag], given the tasks of the project and the
    tags of the query. *)
Definition tasksForProjectWithTag (top : list Task) (ofTags : list Tag)
  : list omnifocus.Task :=
  record <$>
    List.filter (has_all_tags ofTags)
      (List.filter (λ task, bool_decide (completed task = false))
         (project_tasks top)).

(** A task and the tasks below it. *)
Fixpoint subtree (t : Task) : list Task :=
  match t with
  | MkTask _ _ _ _ children => t :: flat_map subtree children
  end.

End jxa.

(** ** Sample values *)

Module samples.

(** [strings.EqualFold] on strings without a byte above 0x7f. *)
Definition EqualFold (s t : string) : bool :=
  bool_decide (strings.ToLower_ascii s = strings.ToLower_ascii t).

Definition Year : Z := 2025.

(** A stand-in for the clock: it only keeps the date apart from the time
    of day. *)
Definition Date (year month day hour min sec nsec : Z) : Z :=
  (year * 100 + month) * 100 + day.

Definition og : gateway.Gateway :=
  {| gateway.AppTag := "github";
     gateway.AssignedTag := "assigned";
     gateway.AssignedProject := "GitHub Issues";
     gateway.ReviewTag := "review";
     gateway.ReviewProject := "GitHub PRs";
     gateway.NotificationTag := "notification";
     gateway.NotificationsProject := "GitHub Notifications";
     gateway.SetNotificationsDueDate := true;
     gateway.SetTaskmasterDueDate := true;
     gateway.TaskMasterTaskTag := "taskmaster";
     gateway.DueDate := 1700000000000;
     gateway.PendingChangesProject := "GitHub Pending";
     gateway.PendingChangesTag := "pending" |}.

(** The task Omnifocus holds once a request is carried out. *)
Definition held (r : gateway.NewOmnifocusTask) : omnifocus.Task :=
  {| omnifocus.ID := "id";
     omnifocus.Name := gateway.Name r;
     omnifocus.Completed := false;
     omnifocus.Tags := gateway.Tags r |}.

Definition issue : github.Issue :=
  {| github.Title := " Fix it ";
     github.HTMLURL := "https://github.com/a/b/issues/1";
     github.URL := "https://api.github.com/repos/a/b/issues/1";
     github.Repository_FullName := "a/b";
     github.Number := 1;
     github.Labels := [Some "bug"];
     github.Milestone_Title := "" |}.

Definition notification : github.Notification :=
  {| github.ID := Some "42";
     github.Subject_URL := "https://api.github.com/repos/a/b/issues/1";
     github.Subject_LatestCommentURL := "";
     github.Subject_Title := "Fix it";
     github.Notification_Repository_FullName := "a/b" |}.

Definition fetch (url : string) : ghg.response :=
  ghg.Fetched "https://github.com/a/b/issues/1".

Definition TrimSpace (s : string) : string := s.

End samples.

(** * Properties *)

(** ** Facts about the library functions *)

Section slices_facts.

Lemma cmp_Compare_zero (x y : string) :
  slices.cmp_Compare x y = 0 ↔ x = y.
Proof.
  unfold slices.cmp_Compare. split.
  - destruct (String.compare x y) eqn:E; try discriminate.
    intros _. by apply String.compare_eq_iff.
  - intros ->. pose proof (String.compare_antisym y y) as Hs.
    destruct (String.compare y y); simpl in Hs; congruence.
Qed.

Lemma Compare_zero (s1 s2 : list string) :
  slices.Compare s1 s2 = 0 ↔ s1 = s2.
Proof.
  revert s2. induction s1 as [|v1 s1 IH]; intros [|v2 s2]; simpl;
    try (split; [discriminate|discriminate]); [done|].
  case_decide as Hc.
  - split; [done|]. intros [= -> ->]. destruct Hc. by apply cmp_Compare_zero.
  - apply cmp_Compare_zero in Hc as ->.
    rewrite IH. split; [by intros ->|by intros [= ->]].
Qed.

Lemma Contains_elem_of (s : list string) (v : string) :
  slices.Contains s v = true ↔ v ∈ s.
Proof.
  induction s as [|x s IH]; simpl.
  - split; [discriminate|]. by intros ?%elem_of_nil.
  - case_decide as Hv.
    + subst. split; [constructor|done].
    + rewrite IH, elem_of_cons. split; [by right|]. by intros [?|?].
Qed.

Lemma Contains_not_elem_of (s : list string) (v : string) :
  slices.Contains s v = false ↔ v ∉ s.
Proof.
  rewrite <- Contains_elem_of. destruct (slices.Contains s v).
  - split; [discriminate|]. by intros [].
  - split; [discriminate|done].
Qed.

Lemma Sorted_Permutation (l : list string) : slices.Sorted l ≡ₚ l.
Proof. apply merge_sort_Permutation. Qed.

Lemma Sorted_is_sorted (l : list string) :
  Sorted String.le (slices.Sorted l).
Proof. apply (Sorted_merge_sort String.le). Qed.

(** Whatever algorithm sorts, the result is this one. *)
Lemma Sorted_characterisation (l s : list string) :
  Sorted String.le s → s ≡ₚ l → slices.Sorted l = s.
Proof.
  intros Hs Hp. apply (Sorted_unique String.le).
  - apply Sorted_is_sorted.
  - done.
  - by rewrite Sorted_Permutation, Hp.
Qed.

Lemma Sorted_eq_Permutation (l1 l2 : list string) :
  slices.Sorted l1 = slices.Sorted l2 ↔ l1 ≡ₚ l2.
Proof.
  split.
  - intros He. by rewrite <- (Sorted_Permutation l1), He, Sorted_Permutation.
  - intros Hp. apply Sorted_characterisation.
    + apply Sorted_is_sorted.
    + by rewrite Sorted_Permutation.
Qed.

Lemma Sorted_elem_of (l : list string) (x : string) :
  x ∈ slices.Sorted l ↔ x ∈ l.
Proof. by rewrite Sorted_Permutation. Qed.

End slices_facts.

(** ** The structure of the result of [Delta] *)

Section delta_facts.

Variable ToLower : string → string.

Context {D C : Type} `{!Keyed D, !Keyed C}.

Implicit Types (desired : gmap string D) (current : gmap string C).
Implicit Types (ops : list (Operation D C)) (k : string).

Lemma toLower_map (s : list string) :
  toLower ToLower s = List.map ToLower s.
Proof.
  unfold toLower.
  enough (∀ acc, foldl (λ lowered v, lowered ++ [ToLower v]) acc s
                 = acc ++ List.map ToLower s) as Hgen by apply Hgen.
  induction s as [|x s IH]; intros acc; simpl.
  - by rewrite app_nil_r.
  - by rewrite IH, <- app_assoc.
Qed.

Lemma elem_of_toLower (s : list string) (x : string) :
  x ∈ s → ToLower x ∈ toLower ToLower s.
Proof.
  rewrite toLower_map. intros Hx. apply list_elem_of_In, in_map.
  by apply list_elem_of_In.
Qed.

Lemma desired_step_app current ign ops kv :
  desired_step ToLower current ign ops kv
  = ops ++ desired_ops ToLower current ign kv.
Proof.
  unfold desired_ops, desired_step. destruct kv as [k v].
  destruct (current !! k); [case_decide|]; simpl; by rewrite ?app_nil_r.
Qed.

Lemma current_step_app desired ops (kv : string * C) :
  current_step desired ops kv = ops ++ current_ops desired kv.
Proof.
  unfold current_ops, current_step. destruct kv as [k v].
  destruct (desired !! k); simpl; by rewrite ?app_nil_r.
Qed.

Lemma foldl_desired_step current ign ops (l : list (string * D)) :
  foldl (desired_step ToLower current ign) ops l
  = ops ++ flat_map (desired_ops ToLower current ign) l.
Proof.
  revert ops. induction l as [|kv l IH]; intros ops; simpl.
  - by rewrite app_nil_r.
  - by rewrite IH, desired_step_app, <- app_assoc.
Qed.

Lemma foldl_current_step desired ops (l : list (string * C)) :
  foldl (current_step desired) ops l
  = ops ++ flat_map (current_ops desired) l.
Proof.
  revert ops. induction l as [|kv l IH]; intros ops; simpl.
  - by rewrite app_nil_r.
  - by rewrite IH, current_step_app, <- app_assoc.
Qed.

(** The result is the concatenation of what the iterations emit. *)
Lemma Delta_flat_map drange crange desired current ign :
  Delta ToLower drange crange desired current ign
  = flat_map (desired_ops ToLower current (toLower ToLower ign)) drange
    ++ flat_map (current_ops desired) crange.
Proof.
  unfold Delta. by rewrite foldl_current_step, foldl_desired_step.
Qed.

(** *** Selecting the operations of one key *)

Lemma ops_for_app k ops1 ops2 :
  ops_for k (ops1 ++ ops2) = ops_for k ops1 ++ ops_for k ops2.
Proof. apply List.filter_app. Qed.

Lemma ops_for_all k ops :
  Forall (λ op, Key (Item op) = k) ops → ops_for k ops = ops.
Proof.
  induction 1 as [|op ops Hop _ IH]; simpl; [done|].
  by rewrite bool_decide_eq_true_2, IH.
Qed.

Lemma ops_for_none k ops :
  Forall (λ op, Key (Item op) ≠ k) ops → ops_for k ops = [].
Proof.
  induction 1 as [|op ops Hop _ IH]; simpl; [done|].
  by rewrite bool_decide_eq_false_2.
Qed.

Lemma ops_for_flat_map_miss {T} (f : string * T → list (Operation D C))
    (l : list (string * T)) k :
  Forall (λ kv, Forall (λ op, Key (Item op) ≠ k) (f kv)) l →
  ops_for k (flat_map f l) = [].
Proof.
  induction 1 as [|kv l Hkv _ IH]; simpl; [done|].
  by rewrite ops_for_app, ops_for_none, IH.
Qed.

Lemma ops_for_flat_map_hit {T} (f : string * T → list (Operation D C))
    (l : list (string * T)) k (x : T) :
  NoDup l.*1 → (k, x) ∈ l →
  Forall (λ kv, Forall (λ op, Key (Item op) = kv.1) (f kv)) l →
  ops_for k (flat_map f l) = f (k, x).
Proof.
  induction l as [|kv l IH]; intros Hnd Hin Hall.
  { by apply elem_of_nil in Hin. }
  apply Forall_cons in Hall as [Hkv Hall].
  rewrite fmap_cons in Hnd. apply NoDup_cons in Hnd as [Hfresh Hnd].
  simpl. rewrite ops_for_app.
  apply elem_of_cons in Hin as [<-|Hin].
  - rewrite ops_for_all by done.
    rewrite ops_for_flat_map_miss; [by rewrite app_nil_r|].
    apply Forall_forall. intros kv' Hkv'.
    rewrite Forall_forall in Hall. specialize (Hall _ Hkv').
    eapply Forall_impl; [exact Hall|]. intros op -> Heq. simpl in *.
    apply Hfresh. rewrite <- Heq. apply list_elem_of_fmap. by exists kv'.
  - rewrite ops_for_none, IH; [done..|].
    eapply Forall_impl; [exact Hkv|]. intros op -> Heq.
    apply Hfresh. rewrite Heq. apply list_elem_of_fmap. by exists (k, x).
Qed.

(** *** What [range] guarantees *)

Lemma range_lookup {T} (m : gmap string T) (l : list (string * T)) k x :
  l ≡ₚ map_to_list m → (k, x) ∈ l ↔ m !! k = Some x.
Proof. intros ->. apply elem_of_map_to_list. Qed.

Lemma range_NoDup {T} (m : gmap string T) (l : list (string * T)) :
  l ≡ₚ map_to_list m → NoDup l.*1.
Proof. intros ->. apply NoDup_fst_map_to_list. Qed.

Lemma range_absent {T} (m : gmap string T) (l : list (string * T)) k :
  l ≡ₚ map_to_list m → m !! k = None → Forall (λ kv, kv.1 ≠ k) l.
Proof.
  intros Hl Hk. apply Forall_forall. intros [k' x] Hin Heq.
  simpl in Heq. subst k'.
  apply (range_lookup m) in Hin; [|done]. congruence.
Qed.

(** *** Keys of the emitted operations *)

Lemma desired_ops_keys desired current ign (l : list (string * D)) :
  keyed_by_Key desired → keyed_by_Key current →
  l ≡ₚ map_to_list desired →
  Forall (λ kv, Forall (λ op, Key (Item op) = kv.1)
                  (desired_ops ToLower current ign kv)) l.
Proof.
  intros Hd Hc Hl. apply Forall_forall. intros [k v] Hin.
  apply (range_lookup desired) in Hin; [|done]. apply Hd in Hin.
  unfold desired_ops, desired_step. simpl.
  destruct (current !! k) as [c|] eqn:Hk; [case_decide|]; simpl;
    repeat constructor; simpl; auto.
Qed.

Lemma current_ops_keys desired current (l : list (string * C)) :
  keyed_by_Key current → l ≡ₚ map_to_list current →
  Forall (λ kv, Forall (λ op, Key (Item op) = kv.1)
                  (current_ops desired kv)) l.
Proof.
  intros Hc Hl. apply Forall_forall. intros [k c] Hin.
  apply (range_lookup current) in Hin; [|done]. apply Hc in Hin.
  unfold current_ops, current_step. simpl.
  destruct (desired !! k); repeat constructor; simpl; auto.
Qed.

Lemma current_ops_present desired k (c : C) :
  is_Some (desired !! k) → current_ops desired (k, c) = [].
Proof. intros [v Hv]. unfold current_ops, current_step. by rewrite Hv. Qed.

Lemma current_ops_absent desired k (c : C) :
  desired !! k = None →
  current_ops desired (k, c) = [ {| OpType := Remove; Item := OfCurrent c |} ].
Proof. intros Hv. unfold current_ops, current_step. by rewrite Hv. Qed.

Lemma keys_elsewhere {T} (f : string * T → list (Operation D C))
    (l : list (string * T)) k :
  Forall (λ kv, Forall (λ op, Key (Item op) = kv.1) (f kv)) l →
  Forall (λ kv, kv.1 ≠ k ∨ f kv = []) l →
  Forall (λ kv, Forall (λ op, Key (Item op) ≠ k) (f kv)) l.
Proof.
  intros Hkeys Hne. apply Forall_forall. intros kv Hin.
  rewrite Forall_forall in Hkeys, Hne.
  destruct (Hne _ Hin) as [Hk| ->]; [|constructor].
  eapply Forall_impl; [exact (Hkeys _ Hin)|]. simpl. congruence.
Qed.

(** The operations for the key [k] in a result made of a pass over
    [desired] followed by the pass over [current], whatever the order of
    the two enumerations. *)
Lemma ops_for_two_passes (f : string * D → list (Operation D C))
    desired current (drange : list (string * D))
    (crange : list (string * C)) k :
  keyed_by_Key current →
  drange ≡ₚ map_to_list desired → crange ≡ₚ map_to_list current →
  Forall (λ kv, Forall (λ op, Key (Item op) = kv.1) (f kv)) drange →
  ops_for k (flat_map f drange ++ flat_map (current_ops desired) crange) =
    match desired !! k with
    | Some v => f (k, v)
    | None =>
        match current !! k with
        | Some c => [ {| OpType := Remove; Item := OfCurrent c |} ]
        | None => []
        end
    end.
Proof.
  intros Hc Hdr Hcr Hdk. rewrite ops_for_app.
  pose proof (current_ops_keys desired current crange Hc Hcr) as Hck.
  destruct (desired !! k) as [v|] eqn:Hv.
  - rewrite (ops_for_flat_map_hit _ drange k v);
      [|by eapply range_NoDup|by apply (range_lookup desired)|done].
    rewrite ops_for_flat_map_miss; [by rewrite app_nil_r|].
    apply keys_elsewhere; [done|]. apply Forall_forall. intros [k' c] _.
    destruct (decide (k' = k)) as [->|]; [right|by left].
    by apply current_ops_present.
  - rewrite ops_for_flat_map_miss; simpl.
    2:{ apply keys_elsewhere; [done|].
        eapply Forall_impl; [by eapply range_absent|]. by left. }
    destruct (current !! k) as [c|] eqn:Hk.
    + rewrite (ops_for_flat_map_hit _ crange k c);
        [|by eapply range_NoDup|by apply (range_lookup current)|done].
      by apply current_ops_absent.
    + apply ops_for_flat_map_miss. apply keys_elsewhere; [done|].
      eapply Forall_impl; [by eapply range_absent|]. by left.
Qed.

Lemma ops_for_Delta desired current ign ops k :
  keyed_by_Key desired → keyed_by_Key current →
  Delta_returns ToLower desired current ign ops →
  ops_for k ops =
    match desired !! k with
    | Some v => desired_ops ToLower current (toLower ToLower ign) (k, v)
    | None =>
        match current !! k with
        | Some c => [ {| OpType := Remove; Item := OfCurrent c |} ]
        | None => []
        end
    end.
Proof.
  intros Hd Hc (drange & crange & Hdr & Hcr & ->).
  rewrite Delta_flat_map. apply ops_for_two_passes; [done..|].
  by apply (desired_ops_keys desired).
Qed.

(** *** The same for the membership-only [Delta] *)

Lemma membership_Delta_flat_map drange crange desired current :
  membership.Delta drange crange desired current
  = flat_map (membership_ops current) drange
    ++ flat_map (current_ops desired) crange.
Proof.
  unfold membership.Delta. rewrite foldl_current_step. f_equal.
  enough (∀ ops, foldl (membership.desired_step current) ops drange
                 = ops ++ flat_map (membership_ops current) drange)
    as Hgen by apply Hgen.
  induction drange as [|[k v] l IH]; intros ops; simpl.
  - by rewrite app_nil_r.
  - rewrite IH. unfold membership_ops. simpl.
    destruct (current !! k); simpl; by rewrite <- ?app_assoc, ?app_nil_r.
Qed.

Lemma ops_for_membership_Delta desired current ops k :
  keyed_by_Key desired → keyed_by_Key current →
  membership.Delta_returns desired current ops →
  ops_for k ops =
    match desired !! k with
    | Some v => membership_ops current (k, v)
    | None =>
        match current !! k with
        | Some c => [ {| OpType := Remove; Item := OfCurrent c |} ]
        | None => []
        end
    end.
Proof.
  intros Hd Hc (drange & crange & Hdr & Hcr & ->).
  rewrite membership_Delta_flat_map. apply ops_for_two_passes; [done..|].
  apply Forall_forall. intros [k' v] Hin.
  apply (range_lookup desired) in Hin; [|done]. apply Hd in Hin.
  unfold membership_ops. simpl.
  destruct (current !! k'); repeat constructor; simpl; auto.
Qed.

(** *** The decision taken for a key present on both sides *)

Lemma desired_ops_absent current ign k (v : D) :
  current !! k = None →
  desired_ops ToLower current ign (k, v)
  = [ {| OpType := Add; Item := OfDesired v |} ].
Proof. intros Hk. unfold desired_ops, desired_step. by rewrite Hk. Qed.

Lemma desired_ops_changed current ign k (v : D) (c : C) :
  current !! k = Some c → vTags ToLower v ≠ cTags ToLower ign c →
  desired_ops ToLower current ign (k, v)
  = [ {| OpType := Remove; Item := OfCurrent c |};
      {| OpType := Add; Item := OfDesired v |} ].
Proof.
  intros Hk Hne. unfold desired_ops, desired_step. rewrite Hk.
  rewrite decide_True; [done|]. by rewrite Compare_zero.
Qed.

Lemma desired_ops_unchanged current ign k (v : D) (c : C) :
  current !! k = Some c → vTags ToLower v = cTags ToLower ign c →
  desired_ops ToLower current ign (k, v) = [].
Proof.
  intros Hk Heq. unfold desired_ops, desired_step. rewrite Hk.
  rewrite decide_False; [done|]. rewrite Compare_zero. by intros [].
Qed.

(** *** Replaying operations on a keyed collection *)

Lemma apply_ops_lookup (m : gmap string (Boxed D C)) ops k :
  apply_ops m ops !! k = replay (m !! k) (ops_for k ops).
Proof.
  unfold apply_ops, replay. revert m.
  induction ops as [|op ops IH]; intros m; simpl; [done|].
  rewrite IH. unfold apply_op. case_bool_decide as Hk; simpl.
  - subst k. destruct (OpType op).
    + by rewrite lookup_insert_eq.
    + by rewrite lookup_delete_eq.
  - destruct (OpType op).
    + by rewrite lookup_insert_ne.
    + by rewrite lookup_delete_ne.
Qed.

(** The entry found under [k] once every operation is applied. *)
Lemma converged_lookup desired current ign ops k :
  keyed_by_Key desired → keyed_by_Key current →
  Delta_returns ToLower desired current ign ops →
  apply_ops (initial current) ops !! k =
    match desired !! k with
    | None => None
    | Some v =>
        match current !! k with
        | None => Some (OfDesired v)
        | Some c =>
            if decide (vTags ToLower v
                       = cTags ToLower (toLower ToLower ign) c)
            then Some (OfCurrent c) else Some (OfDesired v)
        end
    end.
Proof.
  intros Hd Hc Hops. rewrite apply_ops_lookup.
  rewrite (ops_for_Delta desired current ign) by done.
  unfold initial. rewrite lookup_fmap.
  destruct (desired !! k) as [v|] eqn:Hv;
    destruct (current !! k) as [c|] eqn:Hk; [| |done..].
  - case_decide as Heq.
    + by rewrite (desired_ops_unchanged _ _ _ _ c).
    + by rewrite (desired_ops_changed _ _ _ _ c).
  - by rewrite desired_ops_absent.
Qed.

End delta_facts.

(** ** Normalisation of tags *)

Section normalisation.

Variable ToLower : string → string.

Lemma deleteFunc_elem_of (l ign : list string) (x : string) :
  x ∈ deleteFunc l (λ s, slices.Contains ign s) ↔ x ∈ l ∧ x ∉ ign.
Proof.
  unfold deleteFunc. rewrite !list_elem_of_In, List.filter_In.
  rewrite negb_true_iff, Contains_not_elem_of. by rewrite list_elem_of_In.
Qed.

Lemma deleteFunc_app (l1 l2 : list string) del :
  deleteFunc (l1 ++ l2) del = deleteFunc l1 del ++ deleteFunc l2 del.
Proof. apply List.filter_app. Qed.

Lemma deleteFunc_Permutation (l1 l2 : list string) del :
  l1 ≡ₚ l2 → deleteFunc l1 del ≡ₚ deleteFunc l2 del.
Proof.
  unfold deleteFunc.
  induction 1 as [|x l1 l2 _ IH|x y l|l1 l2 l3 _ IH1 _ IH2]; simpl.
  - done.
  - destruct (negb (del x)); by rewrite IH.
  - destruct (negb (del x)), (negb (del y)); try done. apply perm_swap.
  - by rewrite IH1.
Qed.

(** Tags that are all on the ignore list leave nothing behind. *)
Lemma deleteFunc_all_ignored (l ign : list string) :
  Forall (λ s, s ∈ ign) l → deleteFunc l (λ s, slices.Contains ign s) = [].
Proof.
  unfold deleteFunc. induction 1 as [|x l Hx _ IH]; simpl; [done|].
  apply Contains_elem_of in Hx. by rewrite Hx.
Qed.

(** Tags none of which is on the ignore list are all kept. *)
Lemma deleteFunc_none_ignored (l ign : list string) :
  Forall (λ s, s ∉ ign) l → deleteFunc l (λ s, slices.Contains ign s) = l.
Proof.
  unfold deleteFunc. induction 1 as [|x l Hx _ IH]; simpl; [done|].
  apply Contains_not_elem_of in Hx. by rewrite Hx, IH.
Qed.

Lemma lower_app (l1 l2 : list string) :
  lower ToLower (l1 ++ l2) = lower ToLower l1 ++ lower ToLower l2.
Proof. apply List.map_app. Qed.

Lemma lower_Permutation (l1 l2 : list string) :
  l1 ≡ₚ l2 → lower ToLower l1 ≡ₚ lower ToLower l2.
Proof. apply Permutation_map. Qed.

Lemma lower_Forall (P : string → Prop) (l : list string) :
  Forall (λ t, P (ToLower t)) l → Forall P (lower ToLower l).
Proof. induction 1; simpl; by constructor. Qed.

Lemma elem_of_lower (l : list string) (t : string) :
  t ∈ l → ToLower t ∈ lower ToLower l.
Proof.
  intros Ht. apply list_elem_of_In, List.in_map. by apply list_elem_of_In.
Qed.

Context {D C : Type} `{!Keyed D, !Keyed C}.

(** The comparison sees a current item whose tags are [kept] plus
    ignored [extras] as it sees [kept] alone. *)
Lemma cTags_without_ignored (ign kept extras : list string) (c : C) :
  GetTags c ≡ₚ kept ++ extras →
  Forall (λ t, ToLower t ∈ toLower ToLower ign) extras →
  cTags ToLower (toLower ToLower ign) c
  = slices.Sorted
      (deleteFunc (lower ToLower kept)
         (λ s, slices.Contains (toLower ToLower ign) s)).
Proof.
  intros Hperm Hex. unfold cTags. apply Sorted_eq_Permutation.
  rewrite (deleteFunc_Permutation _ _ _ (lower_Permutation _ _ Hperm)).
  rewrite lower_app, deleteFunc_app.
  rewrite (deleteFunc_all_ignored (lower ToLower extras));
    [by rewrite app_nil_r|].
  by apply lower_Forall.
Qed.

(** A tag of the ignore list never reaches the compared tags of the
    current item. *)
Lemma cTags_free_of_ignored (ign : list string) (c : C) (s : string) :
  s ∈ cTags ToLower ign c → s ∉ ign.
Proof.
  unfold cTags. rewrite Sorted_elem_of, deleteFunc_elem_of. by intros [_ ?].
Qed.

(** Every tag of the desired item reaches the comparison, lower-cased. *)
Lemma vTags_elem_of (v : D) (t : string) :
  t ∈ GetTags v → ToLower t ∈ vTags ToLower v.
Proof.
  intros Ht. unfold vTags. rewrite Sorted_elem_of. by apply elem_of_lower.
Qed.

End normalisation.

(** ** The testable properties of [Delta] *)

Section delta_properties.

Variable ToLower : string → string.

Context {D C : Type} `{!Keyed D, !Keyed C}.

Implicit Types (desired : gmap string D) (current : gmap string C).
Implicit Types (ops : list (Operation D C)) (k : string).
Implicit Types (ign : list string) (v : D) (c : C).

Lemma flat_map_nil {A B} (f : A → list B) (l : list A) :
  Forall (λ x, f x = []) l → flat_map f l = [].
Proof. induction 1 as [|x l Hx _ IH]; simpl; [done|]. by rewrite Hx, IH. Qed.

Lemma flat_map_singleton {A B} (f : A → list B) (g : A → B) (l : list A) :
  Forall (λ x, f x = [g x]) l → flat_map f l = g <$> l.
Proof. induction 1 as [|x l Hx _ IH]; simpl; [done|]. by rewrite Hx, IH. Qed.

Lemma range_empty {T} (l : list (string * T)) :
  l ≡ₚ map_to_list (∅ : gmap string T) → l = [].
Proof. rewrite map_to_list_empty. apply Permutation_nil_r. Qed.

(** Two results of the same call differ by the order of the operations
    only. *)
Lemma Delta_returns_Permutation desired current ign ops1 ops2 :
  Delta_returns ToLower desired current ign ops1 →
  Delta_returns ToLower desired current ign ops2 →
  ops1 ≡ₚ ops2.
Proof.
  intros (d1 & c1 & Hd1 & Hc1 & ->) (d2 & c2 & Hd2 & Hc2 & ->).
  rewrite !Delta_flat_map. by rewrite Hd1, Hc1, Hd2, Hc2.
Qed.

Lemma Delta_length drange crange desired current ign :
  (length (Delta ToLower drange crange desired current ign)
   ≤ 2 * length drange + length crange)%nat.
Proof.
  rewrite Delta_flat_map, length_app.
  assert (∀ kv : string * D,
            length (desired_ops ToLower current
                      (toLower ToLower ign) kv) ≤ 2)%nat as Hd.
  { intros [k v]. unfold desired_ops, desired_step.
    destruct (current !! k); [case_decide|]; simpl; lia. }
  assert (∀ kv : string * C,
            length (current_ops desired kv) ≤ 1)%nat as Hc.
  { intros [k c]. unfold current_ops, current_step.
    destruct (desired !! k); simpl; lia. }
  assert (length (flat_map (desired_ops ToLower current
                              (toLower ToLower ign)) drange)
          ≤ 2 * length drange)%nat as H1.
  { induction drange as [|kv l IH]; [simpl; lia|].
    change (flat_map ?f (kv :: l)) with (f kv ++ flat_map f l).
    rewrite length_app, length_cons. specialize (Hd kv). lia. }
  assert (length (flat_map (current_ops desired) crange)
          ≤ length crange)%nat as H2.
  { induction crange as [|kv l IH]; [simpl; lia|].
    change (flat_map ?f (kv :: l)) with (f kv ++ flat_map f l).
    rewrite length_app, length_cons. specialize (Hc kv). lia. }
  lia.
Qed.

(** C7 — Totality.  For every pair of finite maps and every ignore list
    the call returns an operation list: there is a result, any two
    results of the call hold the same operations (only their order
    depends on the enumeration of the maps), and a result has at most two
    operations per desired entry plus one per current entry.  No input is
    excluded: the maps may be empty, may come from [toSet] on a slice with
    repeated keys, and their items may have no tags. *)
Theorem Delta_total desired current ign :
  ∃ ops,
    Delta_returns ToLower desired current ign ops ∧
    (∀ ops', Delta_returns ToLower desired current ign ops' → ops' ≡ₚ ops) ∧
    (length ops ≤ 2 * size desired + size current)%nat.
Proof.
  exists (Delta ToLower (map_to_list desired) (map_to_list current)
            desired current ign).
  assert (Delta_returns ToLower desired current ign
            (Delta ToLower (map_to_list desired) (map_to_list current)
               desired current ign)) as Hret.
  { by exists (map_to_list desired), (map_to_list current). }
  split; [done|]. split.
  - intros ops' Hops'. by eapply Delta_returns_Permutation.
  - rewrite <- !length_map_to_list. apply Delta_length.
Qed.

(** The decision for a key present on both sides. *)
Lemma ops_for_present desired current ign ops k v c :
  keyed_by_Key desired → keyed_by_Key current →
  Delta_returns ToLower desired current ign ops →
  desired !! k = Some v → current !! k = Some c →
  ops_for k ops =
    if decide (vTags ToLower v = cTags ToLower (toLower ToLower ign) c)
    then []
    else [ {| OpType := Remove; Item := OfCurrent c |};
           {| OpType := Add; Item := OfDesired v |} ].
Proof.
  intros Hd Hc Hops Hv Hk.
  rewrite (ops_for_Delta ToLower desired current ign ops k) by done.
  rewrite Hv. case_decide.
  - by apply (desired_ops_unchanged _ _ _ _ _ c).
  - by apply desired_ops_changed.
Qed.

(** C3 — Tag-changed case.  For a key present in both maps, stored under
    the keys of their items: when the normalised sorted tag sequences
    differ, the operations of the result for that key are exactly the
    Remove of the current task followed by the Add of the desired item;
    when the sequences are equal there is no operation for that key. *)
Theorem Delta_tag_changed desired current ign ops k v c :
  keyed_by_Key desired → keyed_by_Key current →
  Delta_returns ToLower desired current ign ops →
  desired !! k = Some v → current !! k = Some c →
  (vTags ToLower v ≠ cTags ToLower (toLower ToLower ign) c →
   ops_for k ops = [ {| OpType := Remove; Item := OfCurrent c |};
                     {| OpType := Add; Item := OfDesired v |} ]) ∧
  (vTags ToLower v = cTags ToLower (toLower ToLower ign) c →
   ops_for k ops = []).
Proof.
  intros Hd Hc Hops Hv Hk.
  rewrite (ops_for_present desired current ign ops k v c) by done.
  split; intros Htags; [by rewrite decide_False|by rewrite decide_True].
Qed.

Lemma Delta_current_empty desired ign ops :
  Delta_returns ToLower desired ∅ ign ops →
  ops ≡ₚ (λ kv, {| OpType := Add; Item := OfDesired kv.2 |})
           <$> map_to_list desired.
Proof.
  intros (drange & crange & Hdr & Hcr & ->).
  rewrite Delta_flat_map. apply range_empty in Hcr as ->.
  simpl. rewrite app_nil_r, <- Hdr.
  rewrite (flat_map_singleton _
             (λ kv, {| OpType := Add; Item := OfDesired kv.2 |})); [done|].
  apply Forall_forall. intros [k v] _. by apply desired_ops_absent.
Qed.

Lemma membership_Delta_current_empty desired ops :
  membership.Delta_returns desired (∅ : gmap string C) ops →
  ops ≡ₚ (λ kv, {| OpType := Add; Item := OfDesired kv.2 |})
           <$> map_to_list desired.
Proof.
  intros (drange & crange & Hdr & Hcr & ->).
  rewrite membership_Delta_flat_map. apply range_empty in Hcr as ->.
  simpl. rewrite app_nil_r, <- Hdr.
  rewrite (flat_map_singleton _
             (λ kv, {| OpType := Add; Item := OfDesired kv.2 |})); [done|].
  apply Forall_forall. by intros [k v] _.
Qed.

Lemma flat_map_current_ops_desired_empty (crange : list (string * C)) :
  flat_map (current_ops (∅ : gmap string D)) crange
  = (λ kv, {| OpType := Remove; Item := OfCurrent kv.2 |}) <$> crange.
Proof.
  apply flat_map_singleton, Forall_forall. intros [k c] _.
  by apply current_ops_absent.
Qed.

Lemma Delta_desired_empty current ign ops :
  Delta_returns ToLower ∅ current ign ops →
  ops ≡ₚ (λ kv, {| OpType := Remove; Item := OfCurrent kv.2 |})
           <$> map_to_list current.
Proof.
  intros (drange & crange & Hdr & Hcr & ->).
  rewrite Delta_flat_map. apply range_empty in Hdr as ->.
  simpl. by rewrite flat_map_current_ops_desired_empty, Hcr.
Qed.

Lemma membership_Delta_desired_empty current ops :
  membership.Delta_returns (∅ : gmap string D) current ops →
  ops ≡ₚ (λ kv, {| OpType := Remove; Item := OfCurrent kv.2 |})
           <$> map_to_list current.
Proof.
  intros (drange & crange & Hdr & Hcr & ->).
  rewrite membership_Delta_flat_map. apply range_empty in Hdr as ->.
  simpl. by rewrite flat_map_current_ops_desired_empty, Hcr.
Qed.

(** C5 — Missing-in-current pass.  For a key of [desired] that [current]
    lacks (the maps storing every item under its key), the operations of
    the result for that key are exactly one Add carrying the desired
    item; when [current] is empty the result is one Add per entry of
    [desired] and nothing else.  Both hold for the
    [Delta] with tag comparison and for the membership-only [Delta]. *)
Theorem Delta_missing_in_current desired current ign :
  (∀ ops k v,
     keyed_by_Key desired → keyed_by_Key current →
     Delta_returns ToLower desired current ign ops →
     desired !! k = Some v → current !! k = None →
     ops_for k ops = [ {| OpType := Add; Item := OfDesired v |} ]) ∧
  (∀ ops,
     current = ∅ → Delta_returns ToLower desired current ign ops →
     ops ≡ₚ (λ kv, {| OpType := Add; Item := OfDesired kv.2 |})
              <$> map_to_list desired) ∧
  (∀ ops k v,
     keyed_by_Key desired → keyed_by_Key current →
     membership.Delta_returns desired current ops →
     desired !! k = Some v → current !! k = None →
     ops_for k ops = [ {| OpType := Add; Item := OfDesired v |} ]) ∧
  (∀ ops,
     current = ∅ → membership.Delta_returns desired current ops →
     ops ≡ₚ (λ kv, {| OpType := Add; Item := OfDesired kv.2 |})
              <$> map_to_list desired).
Proof.
  repeat split.
  - intros ops k v Hd Hc Hops Hv Hk.
    rewrite (ops_for_Delta ToLower desired current ign ops k) by done.
    rewrite Hv. by apply desired_ops_absent.
  - intros ops -> Hops. by eapply Delta_current_empty.
  - intros ops k v Hd Hc Hops Hv Hk.
    rewrite (ops_for_membership_Delta desired current ops k) by done.
    rewrite Hv. unfold membership_ops. simpl. by rewrite Hk.
  - intros ops -> Hops. by eapply membership_Delta_current_empty.
Qed.

(** C6 — Extra-in-current pass.  For a key of [current] that [desired]
    lacks (the maps storing every item under its key), the operations of
    the result for that key are exactly one Remove carrying the current
    task; when [desired] is empty the result is one Remove per entry of
    [current] and nothing else.  Both hold for
    the [Delta] with tag comparison and for the membership-only
    [Delta]. *)
Theorem Delta_extra_in_current desired current ign :
  (∀ ops k c,
     keyed_by_Key desired → keyed_by_Key current →
     Delta_returns ToLower desired current ign ops →
     current !! k = Some c → desired !! k = None →
     ops_for k ops = [ {| OpType := Remove; Item := OfCurrent c |} ]) ∧
  (∀ ops,
     desired = ∅ → Delta_returns ToLower desired current ign ops →
     ops ≡ₚ (λ kv, {| OpType := Remove; Item := OfCurrent kv.2 |})
              <$> map_to_list current) ∧
  (∀ ops k c,
     keyed_by_Key desired → keyed_by_Key current →
     membership.Delta_returns desired current ops →
     current !! k = Some c → desired !! k = None →
     ops_for k ops = [ {| OpType := Remove; Item := OfCurrent c |} ]) ∧
  (∀ ops,
     desired = ∅ → membership.Delta_returns desired current ops →
     ops ≡ₚ (λ kv, {| OpType := Remove; Item := OfCurrent kv.2 |})
              <$> map_to_list current).
Proof.
  repeat split.
  - intros ops k c Hd Hc Hops Hk Hv.
    rewrite (ops_for_Delta ToLower desired current ign ops k) by done.
    by rewrite Hv, Hk.
  - intros ops -> Hops. by eapply Delta_desired_empty.
  - intros ops k c Hd Hc Hops Hk Hv.
    rewrite (ops_for_membership_Delta desired current ops k) by done.
    by rewrite Hv, Hk.
  - intros ops -> Hops. by eapply membership_Delta_desired_empty.
Qed.

(** Operations of different keys commute: only the order of the
    operations of each key matters. *)
Lemma apply_ops_per_key (m : gmap string (Boxed D C)) ops1 ops2 :
  (∀ k, ops_for k ops1 = ops_for k ops2) →
  apply_ops m ops1 = apply_ops m ops2.
Proof.
  intros Hfor. apply map_eq. intros k. by rewrite !apply_ops_lookup, Hfor.
Qed.

(** What an entry of the converged collection shows of the desired item
    of its key: the lower-cased tags of the item that are not on the
    lower-cased ignore list. *)
Lemma converged_tags desired current ign ops k v :
  keyed_by_Key desired → keyed_by_Key current →
  Delta_returns ToLower desired current ign ops →
  desired !! k = Some v →
  ∃ b : Boxed D C,
    apply_ops (initial current) ops !! k = Some b ∧
    (b = OfDesired v ∨
     ∃ c, b = OfCurrent c ∧
          vTags ToLower v = cTags ToLower (toLower ToLower ign) c) ∧
    ∀ s, s ∈ normalized ToLower ign b ↔
         s ∈ lower ToLower (GetTags v) ∧ s ∉ toLower ToLower ign.
Proof.
  intros Hd Hc Hops Hv.
  rewrite (converged_lookup ToLower desired current ign ops) by done.
  rewrite Hv.
  assert (∀ s, s ∈ normalized ToLower ign (OfDesired v : Boxed D C) ↔
               s ∈ lower ToLower (GetTags v) ∧ s ∉ toLower ToLower ign)
    as Hinserted.
  { intros s. unfold normalized, cTags. simpl.
    by rewrite Sorted_elem_of, deleteFunc_elem_of. }
  destruct (current !! k) as [c|]; [case_decide as Heq|].
  - exists (OfCurrent c). split; [done|]. split; [by eauto|].
    intros s.
    change (normalized ToLower ign (OfCurrent c : Boxed D C))
      with (cTags ToLower (toLower ToLower ign) c).
    split.
    + intros Hs. split; [|by eapply cTags_free_of_ignored].
      rewrite <- Heq in Hs. unfold vTags in Hs.
      by rewrite Sorted_elem_of in Hs.
    + intros [Hs _]. rewrite <- Heq. unfold vTags.
      by rewrite Sorted_elem_of.
  - exists (OfDesired v). by eauto.
  - exists (OfDesired v). by eauto.
Qed.

(** C1 — Convergence.  For maps that store every item under its key and
    any ignore list: applying the operations of a result of [Delta] to
    [current] (Add inserts the item under its key, Remove deletes the key
    of its item), in the order of the result or in any order [applied]
    that keeps the operations of each key in the order of the result,
    gives a collection with the keys of [desired].  Its entries are
    normalised as current items, which is what they are from then on:
    lower-cased, without the tags of the ignore list.  The normalised tag
    set of the entry of a key is then the normalised tag set of the
    desired item of that key less the lower-cased ignore list; it is the
    normalised tag set of the desired item, and the sorted sequences are
    equal as well, exactly when no tag of the desired item is, lower-cased,
    on the lower-cased ignore list. *)
Theorem Delta_convergence desired current ign ops applied :
  keyed_by_Key desired → keyed_by_Key current →
  Delta_returns ToLower desired current ign ops →
  (∀ k, ops_for k applied = ops_for k ops) →
  dom (apply_ops (initial current) applied) = dom desired ∧
  ∀ k v, desired !! k = Some v →
    ∃ b, apply_ops (initial current) applied !! k = Some b ∧
         list_to_set (C := gset string) (normalized ToLower ign b)
         = list_to_set (C := gset string) (lower ToLower (GetTags v))
           ∖ list_to_set (toLower ToLower ign) ∧
         (list_to_set (C := gset string) (normalized ToLower ign b)
          = list_to_set (C := gset string) (lower ToLower (GetTags v)) ↔
          Forall (λ t, ToLower t ∉ toLower ToLower ign) (GetTags v)) ∧
         (normalized ToLower ign b = vTags ToLower v ↔
          Forall (λ t, ToLower t ∉ toLower ToLower ign) (GetTags v)).
Proof.
  intros Hd Hc Hops Horder.
  rewrite (apply_ops_per_key (initial current) applied ops Horder).
  pose proof (converged_lookup ToLower desired current ign ops) as Hlook.
  split.
  - apply set_eq. intros k. rewrite !elem_of_dom, Hlook by done.
    destruct (desired !! k) as [v|]; [|by rewrite !is_Some_alt].
    destruct (current !! k) as [c|]; [case_decide|]; by rewrite !is_Some_alt.
  - intros k v Hv.
    destruct (converged_tags desired current ign ops k v Hd Hc Hops Hv)
      as (b & Hb & Horigin & Htags).
    exists b. split; [done|].
    assert (list_to_set (C := gset string) (normalized ToLower ign b)
            = list_to_set (C := gset string) (lower ToLower (GetTags v)) ↔
            Forall (λ t, ToLower t ∉ toLower ToLower ign) (GetTags v))
      as Hsets.
    { rewrite Forall_forall. split.
      - intros Heq t Ht.
        assert (ToLower t ∈ normalized ToLower ign b) as Hin.
        { apply (elem_of_list_to_set (C := gset string)). rewrite Heq.
          by apply elem_of_list_to_set, elem_of_lower. }
        by apply Htags in Hin as [_ ?].
      - intros Hfree. apply set_eq. intros s.
        rewrite !elem_of_list_to_set, Htags.
        split; [by intros [? _]|]. intros Hs. split; [done|].
        apply list_elem_of_In, in_map_iff in Hs as (t & <- & Ht).
        by apply Hfree, list_elem_of_In. }
    split; [|split; [done|]].
    + apply set_eq. intros s.
      by rewrite elem_of_difference, !elem_of_list_to_set, Htags.
    + split.
      * intros Heq. apply Hsets. rewrite Heq. apply set_eq. intros s.
        unfold vTags. by rewrite !elem_of_list_to_set, Sorted_elem_of.
      * intros Hfree. destruct Horigin as [->|(c & -> & Heq)]; [|done].
        unfold normalized, vTags, cTags. simpl.
        rewrite deleteFunc_none_ignored; [done|]. by apply lower_Forall.
Qed.

(** C2 — No spurious operations, with the normalised tags compared as
    multisets.  If [desired] and [current] have the same keys and, for
    every shared key, the lower-cased tags of the desired item are a
    rearrangement of the lower-cased tags of the current item that are
    not on the lower-cased ignore list, then [Delta] returns the empty
    list.  Tags that differ in letter case only are equal after
    lower-casing. *)
Theorem Delta_no_spurious_ops desired current ign ops :
  dom desired = dom current →
  (∀ k v c, desired !! k = Some v → current !! k = Some c →
            tag_multisets_equal ToLower ign v c) →
  Delta_returns ToLower desired current ign ops →
  ops = [].
Proof.
  intros Hdom Htags (drange & crange & Hdr & Hcr & ->).
  rewrite Delta_flat_map.
  rewrite !flat_map_nil; [done| |]; apply Forall_forall.
  - intros [k c] Hin. apply (range_lookup current) in Hin; [|done].
    apply current_ops_present. apply elem_of_dom. rewrite Hdom.
    by apply elem_of_dom.
  - intros [k v] Hin. apply (range_lookup desired) in Hin; [|done].
    assert (is_Some (current !! k)) as [c Hk].
    { apply elem_of_dom. rewrite <- Hdom. by apply elem_of_dom. }
    apply (desired_ops_unchanged _ _ _ _ _ c); [done|].
    unfold vTags, cTags. apply Sorted_eq_Permutation.
    by apply (Htags k).
Qed.

(** C4 — Ignore list.  For a key present in both maps:
    - the comparison uses the lower-cased desired tags, and the
      lower-cased current tags that are not lower-cased entries of the
      ignore list;
    - if the current tags are [kept] plus [extras] and every extra tag
      is, up to case, on the ignore list, there is no operation for the
      key exactly when [kept] alone is equivalent to the desired tags;
    - in particular there is none when [kept] is, up to case, the
      desired tags and no desired tag is on the ignore list;
    - a desired tag that is on the ignore list is not removed: the key
      then always gets Remove followed by Add. *)
Theorem Delta_ignore_list desired current ign ops k v c :
  keyed_by_Key desired → keyed_by_Key current →
  Delta_returns ToLower desired current ign ops →
  desired !! k = Some v → current !! k = Some c →
  (∀ s, s ∈ vTags ToLower v ↔ s ∈ List.map ToLower (GetTags v)) ∧
  (∀ s, s ∈ cTags ToLower (toLower ToLower ign) c ↔
        s ∈ List.map ToLower (GetTags c) ∧ s ∉ List.map ToLower ign) ∧
  (∀ kept extras,
     GetTags c ≡ₚ kept ++ extras →
     Forall (λ t, ToLower t ∈ List.map ToLower ign) extras →
     (ops_for k ops = [] ↔
      vTags ToLower v
      = slices.Sorted (deleteFunc (lower ToLower kept)
          (λ s, slices.Contains (toLower ToLower ign) s))) ∧
     (List.map ToLower kept ≡ₚ List.map ToLower (GetTags v) →
      Forall (λ t, ToLower t ∉ List.map ToLower ign) (GetTags v) →
      ops_for k ops = [])) ∧
  (∀ t, t ∈ GetTags v → ToLower t ∈ List.map ToLower ign →
        ops_for k ops = [ {| OpType := Remove; Item := OfCurrent c |};
                          {| OpType := Add; Item := OfDesired v |} ]).
Proof.
  intros Hd Hc Hops Hv Hk.
  pose proof (ops_for_present desired current ign ops k v c Hd Hc Hops
                Hv Hk) as Hfor.
  assert (ops_for k ops = [] ↔
          vTags ToLower v = cTags ToLower (toLower ToLower ign) c) as Hiff.
  { rewrite Hfor. case_decide; [done|]. split; [discriminate|done]. }
  split; [|split; [|split]].
  - intros s. unfold vTags. by rewrite Sorted_elem_of.
  - intros s. unfold cTags.
    by rewrite Sorted_elem_of, deleteFunc_elem_of, toLower_map.
  - intros kept extras Hperm Hex. rewrite <- toLower_map in Hex.
    pose proof (cTags_without_ignored ToLower ign kept extras c Hperm Hex)
      as Hc'.
    split; [by rewrite Hiff, Hc'|].
    intros Hkept Hfree. apply Hiff. rewrite Hc'. unfold vTags.
    apply Sorted_eq_Permutation. rewrite <- toLower_map in Hfree.
    rewrite deleteFunc_none_ignored; [by symmetry|].
    apply (Permutation_Forall (symmetry Hkept)). by apply lower_Forall.
  - intros t Ht Hign. rewrite Hfor, decide_False; [done|]. intros Heq.
    apply (cTags_free_of_ignored ToLower (toLower ToLower ign) c (ToLower t)).
    + rewrite <- Heq. by apply vTags_elem_of.
    + by rewrite toLower_map.
Qed.

End delta_properties.

(** ** The keyed-collection builder *)

Section toSet_properties.

Context {T : Type} `{!Keyed T}.

Implicit Types (l : list T) (k : string).

Lemma toSet_snoc l (x : T) : toSet (l ++ [x]) = <[Key x := x]> (toSet l).
Proof. unfold toSet. by rewrite foldl_snoc. Qed.

(** The entry of a key is the last element of the slice with that key. *)
Lemma toSet_lookup l k :
  toSet l !! k = last (filter (λ e, Key e = k) l).
Proof.
  induction l as [|x l IH] using rev_ind; [done|].
  rewrite toSet_snoc, filter_app, filter_cons, filter_nil.
  case_decide as Hk.
  - subst k. by rewrite lookup_insert_eq, last_snoc.
  - by rewrite lookup_insert_ne, app_nil_r.
Qed.

Lemma toSet_keyed l : keyed_by_Key (toSet l).
Proof.
  intros k x. rewrite toSet_lookup. intros Hlast.
  apply last_Some_elem_of, list_elem_of_filter in Hlast. by destruct Hlast.
Qed.

Lemma toSet_dom l : dom (toSet l) = list_to_set (Key <$> l).
Proof.
  induction l as [|x l IH] using rev_ind.
  - unfold toSet. simpl. by rewrite dom_empty_L.
  - rewrite toSet_snoc, dom_insert_L, IH, fmap_app, list_to_set_app_L.
    simpl. rewrite union_empty_r_L. apply (comm_L (∪)).
Qed.

Lemma toSet_size l : size (toSet l) = length (remove_dups (Key <$> l)).
Proof.
  rewrite <- size_dom, toSet_dom.
  rewrite <- (size_list_to_set (C := gset string) (remove_dups (Key <$> l)))
    by apply NoDup_remove_dups.
  f_equal. apply set_eq. intros k.
  by rewrite !elem_of_list_to_set, elem_of_remove_dups.
Qed.

Lemma filter_same_key l k :
  Forall (λ x, Key x = k) l → filter (λ e, Key e = k) l = l.
Proof.
  induction 1 as [|x l Hx _ IH]; [done|].
  by rewrite filter_cons_True, IH.
Qed.

Lemma filter_other_key l k k' :
  k' ≠ k → Forall (λ x, Key x = k) l → filter (λ e, Key e = k') l = [].
Proof.
  intros Hne. induction 1 as [|x l Hx _ IH]; [done|].
  rewrite filter_cons_False; [done|]. congruence.
Qed.

(** C8 — Keyed-collection builder.  [toSet] returns a map whose keys are
    the keys of the elements of the slice, one entry per distinct key;
    the entry of a key is the last element of the slice with that key, so
    a later element overwrites an earlier one of the same key; the empty
    slice gives the empty map, and a non-empty slice whose elements all
    have the key [k] gives the one-entry map from [k] to its last
    element. *)
Theorem toSet_spec l :
  dom (toSet l) = list_to_set (Key <$> l) ∧
  size (toSet l) = length (remove_dups (Key <$> l)) ∧
  (∀ k, toSet l !! k = last (filter (λ e, Key e = k) l)) ∧
  (∀ l1 e1 l2 e2 l3,
     l = l1 ++ e1 :: l2 ++ e2 :: l3 → Key e1 = Key e2 →
     Forall (λ x, Key x ≠ Key e2) l3 →
     toSet l !! Key e1 = Some e2) ∧
  (l = [] → toSet l = ∅) ∧
  (∀ k e, last l = Some e → Forall (λ x, Key x = k) l →
          toSet l = {[ k := e ]}).
Proof.
  split; [apply toSet_dom|]. split; [apply toSet_size|].
  split; [apply toSet_lookup|]. split; [|split].
  - intros l1 e1 l2 e2 l3 -> Hkey Hl3. rewrite toSet_lookup, Hkey.
    replace (l1 ++ e1 :: l2 ++ e2 :: l3)
      with ((l1 ++ e1 :: l2) ++ [e2] ++ l3) by (by rewrite <- app_assoc).
    rewrite (filter_app _ (l1 ++ e1 :: l2)), (filter_app _ [e2] l3).
    assert (filter (λ e, Key e = Key e2) l3 = []) as ->.
    { induction Hl3 as [|x l3 Hx _ IH]; [done|].
      by rewrite filter_cons_False. }
    rewrite (filter_cons_True _ e2 []), filter_nil by done.
    by rewrite app_nil_r, last_snoc.
  - by intros ->.
  - intros k e Hlast Hall. apply map_eq. intros k'.
    rewrite toSet_lookup. destruct (decide (k' = k)) as [->|Hne].
    + by rewrite filter_same_key, lookup_singleton_eq.
    + by rewrite (filter_other_key l k k'), lookup_singleton_ne.
Qed.

End toSet_properties.

(** ** The key of an Omnifocus task *)

Section Task_Key.

Lemma cut_byte_first (sep : ascii) (pre post : string) :
  free_of sep pre →
  strings.cut_byte sep (pre +:+ String sep post) = Some (pre, post).
Proof.
  induction pre as [|c pre IH]; simpl.
  - intros _. by rewrite decide_True.
  - intros [Hc Hpre]. by rewrite decide_False, IH.
Qed.

Lemma cut_byte_free (sep : ascii) (s : string) :
  free_of sep s → strings.cut_byte sep s = None.
Proof.
  induction s as [|c s IH]; simpl; [done|].
  intros [Hc Hs]. by rewrite decide_False, IH.
Qed.

(** A string either has no separator or splits at its first one. *)
Lemma first_separator (sep : ascii) (s : string) :
  free_of sep s ∨
  ∃ pre post, s = pre +:+ String sep post ∧ free_of sep pre.
Proof.
  induction s as [|c s IH]; [by left|].
  destruct (decide (c = sep)) as [->|Hc].
  - right. by exists EmptyString, s.
  - destruct IH as [Hfree|(pre & post & -> & Hpre)].
    + by left.
    + right. by exists (String c pre), post.
Qed.

Lemma SplitN_nonempty (s : string) (sep : ascii) (n : nat) :
  n ≠ O → ∃ piece rest, strings.SplitN s sep n = piece :: rest.
Proof.
  destruct n as [|[|n]]; [done|by eexists _, _|]. intros _. simpl.
  destruct (strings.cut_byte sep s) as [[before after]|]; by eexists _, _.
Qed.

(** C9 — Task key derivation.  The indexing in [Key] never goes out of
    range.  When the name is [pre], a space and [post], with no space in
    [pre], the key is [pre]: the text before the first space.  When the
    name has no space the key is the whole name.  Every name is of one
    of the two forms. *)
Theorem Task_Key_spec (t : omnifocus.Task) :
  omnifocus.Key_indexed t = Some (omnifocus.Key t) ∧
  (∀ pre post,
     omnifocus.Name t = pre +:+ " " +:+ post → free_of " " pre →
     omnifocus.Key t = pre) ∧
  (free_of " " (omnifocus.Name t) →
   omnifocus.Key t = omnifocus.Name t) ∧
  (free_of " " (omnifocus.Name t) ∨
   ∃ pre post,
     omnifocus.Name t = pre +:+ " " +:+ post ∧ free_of " " pre).
Proof.
  unfold omnifocus.Key, omnifocus.Key_indexed. split; [|split; [|split]].
  - destruct (SplitN_nonempty (omnifocus.Name t) " " 2) as (p & r & ->);
      done.
  - intros pre post -> Hpre.
    change (pre +:+ " " +:+ post) with (pre +:+ String " " post).
    unfold strings.SplitN. by rewrite (cut_byte_first " " pre post).
  - intros Hfree. unfold strings.SplitN. by rewrite cut_byte_free.
  - apply first_separator.
Qed.

(** The case of the repository's test [TestTaskKey]. *)
Example TestTaskKey :
  omnifocus.Key
    {| omnifocus.ID := "foo";
       omnifocus.Name := "rhyshort/github-to-omnifocus#3 foo bar foo";
       omnifocus.Completed := false;
       omnifocus.Tags := [] |}
  = "rhyshort/github-to-omnifocus#3".
Proof. reflexivity. Qed.

End Task_Key.

(** ** The tags of a GitHub item *)

Section GitHubItem_GetTags.

(** C10 — Tags of a GitHub item.  [GetTags] yields the labels in their
    order, then the repository name, then the tag made of
    ["milestone: "] and the milestone exactly when the milestone is not
    empty.  Nothing is lower-cased or de-duplicated: the labels are the
    leading tags as they are, and for every lower-casing function the
    tags [Delta] compares are a rearrangement of the lower-cased tags,
    repetitions included. *)
Theorem GetTags_spec (item : gh.GitHubItem) :
  (gh.Milestone item ≠ "" →
   gh.GetTags item
   = gh.Labels item
     ++ [gh.Repo item; "milestone: " +:+ gh.Milestone item]) ∧
  (gh.Milestone item = "" →
   gh.GetTags item = gh.Labels item ++ [gh.Repo item]) ∧
  take (length (gh.Labels item)) (gh.GetTags item) = gh.Labels item ∧
  length (gh.GetTags item)
  = (length (gh.Labels item) + 1
     + if decide (gh.Milestone item = "") then 0 else 1)%nat ∧
  (∀ ToLower : string → string,
     vTags ToLower item ≡ₚ List.map ToLower (gh.GetTags item)).
Proof.
  unfold gh.GetTags, gh.Sprintf_milestone.
  split; [|split; [|split; [|split]]].
  - intros Hm. by rewrite decide_True.
  - intros Hm. by rewrite decide_False by (by intros []).
  - case_decide; by rewrite take_app_length.
  - repeat case_decide; try done; rewrite length_app; simpl; lia.
  - intros ToLower. apply Sorted_Permutation.
Qed.

End GitHubItem_GetTags.

(** ** The scenarios of the specification *)

Section scenarios.

Import scenario.

Lemma returns_run desired current ign :
  Delta_returns strings.ToLower_ascii desired current ign
    (run desired current ign).
Proof. by exists (map_to_list desired), (map_to_list current). Qed.

Lemma returns_run_membership desired current :
  membership.Delta_returns desired current (run_membership desired current).
Proof. by exists (map_to_list desired), (map_to_list current). Qed.

(** With one entry on each side there is one enumeration only. *)
Lemma returns_singletons k1 (v : gh.GitHubItem) k2 (c : omnifocus.Task)
    ign ops :
  Delta_returns strings.ToLower_ascii {[ k1 := v ]} {[ k2 := c ]} ign ops →
  ops = run {[ k1 := v ]} {[ k2 := c ]} ign.
Proof.
  intros (drange & crange & Hd & Hc & ->). unfold run.
  rewrite !map_to_list_singleton.
  rewrite map_to_list_singleton in Hd. rewrite map_to_list_singleton in Hc.
  apply Permutation_singleton_r in Hd as ->.
  by apply Permutation_singleton_r in Hc as ->.
Qed.

Example scenario_add :
  run (toSet [issue1]) (toSet []) [] = [Op Add (OfDesired issue1)].
Proof. reflexivity. Qed.

Example scenario_same_tags :
  run (toSet [issue1]) (toSet [task1]) [] = [].
Proof. reflexivity. Qed.

Example scenario_ignored_tag :
  run (toSet [issue1]) (toSet [task "a/b#1 Fix it" ["bug"; "a/b"; "assigned"]])
    ["assigned"] = [].
Proof. reflexivity. Qed.

Example scenario_case :
  run (toSet [issue1_Bug]) (toSet [task1]) [] = [].
Proof. reflexivity. Qed.

Example scenario_remove :
  run (toSet []) (toSet [task2]) [] = [Op Remove (OfCurrent task2)].
Proof. reflexivity. Qed.

Example scenario_tag_changed :
  run (toSet [issue1_urgent]) (toSet [task1]) []
  = [Op Remove (OfCurrent task1); Op Add (OfDesired issue1_urgent)].
Proof. reflexivity. Qed.

(** The ignore list is not applied to the desired side. *)
Example scenario_ignored_tag_desired :
  run (toSet [issue1_assigned])
    (toSet [task "a/b#1 Fix it" ["bug"; "a/b"; "assigned"]]) ["assigned"]
  = [Op Remove (OfCurrent (task "a/b#1 Fix it" ["bug"; "a/b"; "assigned"]));
     Op Add (OfDesired issue1_assigned)].
Proof. reflexivity. Qed.

(** Inputs the engine must accept: nothing on either side, a task without
    tags, slices that repeat a key. *)
Example scenario_both_empty :
  run (toSet []) (toSet []) ["assigned"] = [].
Proof. reflexivity. Qed.

Example scenario_no_tags :
  run (toSet [issue3]) (toSet [task "a/b#3 New" []]) []
  = [Op Remove (OfCurrent (task "a/b#3 New" []));
     Op Add (OfDesired issue3)].
Proof. reflexivity. Qed.

Example scenario_repeated_keys :
  run (toSet [issue1; issue1_urgent]) (toSet [task1_later; task1]) []
  = [Op Remove (OfCurrent task1); Op Add (OfDesired issue1_urgent)].
Proof. reflexivity. Qed.

(** Within one key the order of application matters: the Add of a
    changed item applied before the Remove of its task loses the entry. *)
Example scenario_order_within_key :
  apply_ops (initial (toSet [task1]))
    [Op Remove (OfCurrent task1); Op Add (OfDesired issue1_urgent)]
  = {[ "a/b#1" := OfDesired issue1_urgent ]} ∧
  apply_ops (initial (toSet [task1]))
    [Op Add (OfDesired issue1_urgent); Op Remove (OfCurrent task1)]
  = ∅.
Proof.
  split; apply map_eq; intros k; rewrite apply_ops_lookup;
    unfold initial, toSet; simpl; rewrite lookup_fmap;
    (destruct (decide (k = "a/b#1")) as [->|Hk];
     [done|]);
    rewrite !bool_decide_eq_false_2 by done; simpl;
    rewrite lookup_insert_ne, lookup_empty by done; simpl;
    by rewrite ?lookup_singleton_ne, ?lookup_empty by done.
Qed.

(** A later element of the slice replaces an earlier one of its key. *)
Example scenario_toSet_overwrites :
  toSet [task1; task2; task1_later]
  = {[ "a/b#1" := task1_later; "a/b#2" := task2 ]}.
Proof. apply map_eq. intros k. rewrite toSet_lookup.
  destruct (decide (k = "a/b#1")) as [->|H1]; [done|].
  destruct (decide (k = "a/b#2")) as [->|H2]; [done|].
  rewrite lookup_insert_ne, lookup_singleton_ne by done.
  rewrite !filter_cons_False, filter_nil; done.
Qed.

End scenarios.

(** ** The statements at concrete inputs *)

Section instances.

Import scenario.

Lemma toSet_singleton_lookup {T : Type} `{!Keyed T} (x y : T) k :
  toSet [x] !! k = Some y → k = Key x ∧ y = x.
Proof.
  unfold toSet. simpl. intros [[-> ->]|[_ Hk]]%lookup_insert_Some; [done|].
  by rewrite lookup_empty in Hk.
Qed.

Lemma Delta_convergence_witness :
  keyed_by_Key (toSet [issue1_Bug; issue3]) ∧
  keyed_by_Key (toSet [task1_assigned; task2]) ∧
  Delta_returns strings.ToLower_ascii
    (toSet [issue1_Bug; issue3]) (toSet [task1_assigned; task2])
    ["ASSIGNED"]
    (run (toSet [issue1_Bug; issue3]) (toSet [task1_assigned; task2])
       ["ASSIGNED"]) ∧
  (∀ k, ops_for k [Op Remove (OfCurrent task2); Op Add (OfDesired issue3)]
        = ops_for k
            (run (toSet [issue1_Bug; issue3])
               (toSet [task1_assigned; task2]) ["ASSIGNED"])) ∧
  dom (apply_ops (initial (toSet [task1_assigned; task2]))
         [Op Remove (OfCurrent task2); Op Add (OfDesired issue3)])
  = dom (toSet [issue1_Bug; issue3]) ∧
  ∀ k v, toSet [issue1_Bug; issue3] !! k = Some v →
    ∃ b, apply_ops (initial (toSet [task1_assigned; task2]))
           [Op Remove (OfCurrent task2); Op Add (OfDesired issue3)] !! k
         = Some b ∧
         list_to_set (C := gset string)
           (normalized strings.ToLower_ascii ["ASSIGNED"] b)
         = list_to_set (C := gset string)
             (lower strings.ToLower_ascii (GetTags v))
           ∖ list_to_set (toLower strings.ToLower_ascii ["ASSIGNED"]) ∧
         (list_to_set (C := gset string)
            (normalized strings.ToLower_ascii ["ASSIGNED"] b)
          = list_to_set (C := gset string)
              (lower strings.ToLower_ascii (GetTags v)) ↔
          Forall (λ t, strings.ToLower_ascii t
                       ∉ toLower strings.ToLower_ascii ["ASSIGNED"])
            (GetTags v)) ∧
         (normalized strings.ToLower_ascii ["ASSIGNED"] b
          = vTags strings.ToLower_ascii v ↔
          Forall (λ t, strings.ToLower_ascii t
                       ∉ toLower strings.ToLower_ascii ["ASSIGNED"])
            (GetTags v)).
Proof.
  assert (keyed_by_Key (toSet [issue1_Bug; issue3])) as Hd
    by apply toSet_keyed.
  assert (keyed_by_Key (toSet [task1_assigned; task2])) as Hc
    by apply toSet_keyed.
  pose proof (returns_run (toSet [issue1_Bug; issue3])
                (toSet [task1_assigned; task2]) ["ASSIGNED"]) as Hr.
  assert (∀ k, ops_for k
                 [Op Remove (OfCurrent task2); Op Add (OfDesired issue3)]
               = ops_for k
                   (run (toSet [issue1_Bug; issue3])
                      (toSet [task1_assigned; task2]) ["ASSIGNED"]))
    as Horder.
  { intros k.
    assert (run (toSet [issue1_Bug; issue3])
              (toSet [task1_assigned; task2]) ["ASSIGNED"]
            = [Op Add (OfDesired issue3); Op Remove (OfCurrent task2)])
      as -> by reflexivity.
    assert (omnifocus.Key task2 = "a/b#2") as Hkey by reflexivity.
    unfold ops_for. simpl. rewrite Hkey.
    repeat case_bool_decide; congruence. }
  split; [exact Hd|]. split; [exact Hc|]. split; [exact Hr|].
  split; [exact Horder|].
  exact (Delta_convergence strings.ToLower_ascii
           (toSet [issue1_Bug; issue3]) (toSet [task1_assigned; task2])
           ["ASSIGNED"] _ _ Hd Hc Hr Horder).
Defined.

(** Convergence fails on the tags when a desired item has a tag of the
    ignore list: the item is inserted as it is, and normalising the new
    entry drops the tag.  Here the item of key a/b#1 has the tags bug,
    assigned and a/b, nothing is held locally and assigned is ignored. *)
Lemma converges_to_desired_tags_counterexample :
  ¬ converges_to_desired_tags strings.ToLower_ascii
      (toSet [issue1_assigned]) (∅ : gmap string omnifocus.Task)
      ["assigned"].
Proof.
  intros Hclaim.
  destruct (Hclaim _ (returns_run (toSet [issue1_assigned]) ∅ ["assigned"]))
    as [_ Htags].
  destruct (Htags "a/b#1" issue1_assigned) as (b & Hb & Hset);
    [reflexivity|].
  assert (b = OfDesired issue1_assigned) as ->.
  { vm_compute in Hb. by injection Hb as <-. }
  assert ("assigned" ∈ normalized strings.ToLower_ascii ["assigned"]
                         (OfDesired issue1_assigned
                          : Boxed gh.GitHubItem omnifocus.Task)) as Hin.
  { apply (elem_of_list_to_set (C := gset string)). rewrite Hset.
    apply elem_of_list_to_set. vm_compute lower.
    rewrite !elem_of_cons. tauto. }
  assert (normalized strings.ToLower_ascii ["assigned"]
            (OfDesired issue1_assigned : Boxed gh.GitHubItem omnifocus.Task)
          = ["a/b"; "bug"]) as Hnorm by (vm_compute; reflexivity).
  rewrite Hnorm, !elem_of_cons, elem_of_nil in Hin.
  by destruct Hin as [?|[?|[]]].
Qed.


Lemma Delta_tag_changed_witness :
  keyed_by_Key (toSet [issue1_urgent]) ∧ keyed_by_Key (toSet [task1]) ∧
  Delta_returns strings.ToLower_ascii (toSet [issue1_urgent])
    (toSet [task1]) [] (run (toSet [issue1_urgent]) (toSet [task1]) []) ∧
  toSet [issue1_urgent] !! "a/b#1" = Some issue1_urgent ∧
  toSet [task1] !! "a/b#1" = Some task1 ∧
  vTags strings.ToLower_ascii issue1_urgent
  ≠ cTags strings.ToLower_ascii (toLower strings.ToLower_ascii []) task1 ∧
  ops_for "a/b#1" (run (toSet [issue1_urgent]) (toSet [task1]) [])
  = [Op Remove (OfCurrent task1); Op Add (OfDesired issue1_urgent)].
Proof.
  assert (keyed_by_Key (toSet [issue1_urgent])) as Hd by apply toSet_keyed.
  assert (keyed_by_Key (toSet [task1])) as Hc by apply toSet_keyed.
  pose proof (returns_run (toSet [issue1_urgent]) (toSet [task1]) [])
    as Hr.
  assert (vTags strings.ToLower_ascii issue1_urgent
          ≠ cTags strings.ToLower_ascii
              (toLower strings.ToLower_ascii []) task1) as Hne.
  { vm_compute. discriminate. }
  split; [exact Hd|]. split; [exact Hc|]. split; [exact Hr|].
  split; [reflexivity|]. split; [reflexivity|]. split; [exact Hne|].
  exact (proj1 (Delta_tag_changed strings.ToLower_ascii
                  (toSet [issue1_urgent]) (toSet [task1]) [] _ "a/b#1"
                  issue1_urgent task1 Hd Hc Hr eq_refl eq_refl) Hne).
Defined.

Lemma Delta_no_spurious_ops_witness :
  dom (toSet [issue1_Bug]) = dom (toSet [task1_assigned]) ∧
  (∀ k v c, toSet [issue1_Bug] !! k = Some v →
            toSet [task1_assigned] !! k = Some c →
            tag_multisets_equal strings.ToLower_ascii ["ASSIGNED"] v c) ∧
  Delta_returns strings.ToLower_ascii (toSet [issue1_Bug])
    (toSet [task1_assigned]) ["ASSIGNED"]
    (run (toSet [issue1_Bug]) (toSet [task1_assigned]) ["ASSIGNED"]) ∧
  run (toSet [issue1_Bug]) (toSet [task1_assigned]) ["ASSIGNED"] = [].
Proof.
  assert (dom (toSet [issue1_Bug]) = dom (toSet [task1_assigned])) as Hdom.
  { by rewrite !toSet_dom. }
  assert (∀ k v c, toSet [issue1_Bug] !! k = Some v →
                   toSet [task1_assigned] !! k = Some c →
                   tag_multisets_equal strings.ToLower_ascii
                     ["ASSIGNED"] v c) as Htags.
  { intros k v c [_ ->]%toSet_singleton_lookup
      [_ ->]%toSet_singleton_lookup.
    vm_compute. reflexivity. }
  pose proof (returns_run (toSet [issue1_Bug]) (toSet [task1_assigned])
                ["ASSIGNED"]) as Hr.
  split; [exact Hdom|]. split; [exact Htags|]. split; [exact Hr|].
  exact (Delta_no_spurious_ops strings.ToLower_ascii _ _ _ _
           Hdom Htags Hr).
Defined.

(** The claim "no spurious operations" read with tag sets fails when a
    tag is repeated after lower-casing: the sets are equal, the sorted
    sequences are not. *)
Lemma no_spurious_ops_on_equal_sets_counterexample :
  ¬ no_spurious_ops_on_equal_sets strings.ToLower_ascii
      (toSet [issue1_twice]) (toSet [task1]) [].
Proof.
  intros Hclaim.
  assert (run (toSet [issue1_twice]) (toSet [task1]) [] = []) as Hnil.
  { apply Hclaim.
    - by rewrite !toSet_dom.
    - intros k v c [_ ->]%toSet_singleton_lookup
        [_ ->]%toSet_singleton_lookup.
      unfold tag_sets_equal. apply set_eq. intros s.
      rewrite !elem_of_list_to_set. vm_compute lower. vm_compute deleteFunc.
      rewrite !elem_of_cons, !elem_of_nil. tauto.
    - apply returns_run. }
  vm_compute in Hnil. discriminate.
Qed.

Lemma Delta_ignore_list_witness :
  (keyed_by_Key (toSet [issue1_Bug]) ∧
   keyed_by_Key (toSet [task1_assigned]) ∧
   Delta_returns strings.ToLower_ascii (toSet [issue1_Bug])
     (toSet [task1_assigned]) ["ASSIGNED"]
     (run (toSet [issue1_Bug]) (toSet [task1_assigned]) ["ASSIGNED"]) ∧
   GetTags task1_assigned ≡ₚ ["bug"; "A/B"] ++ ["Assigned"] ∧
   Forall (λ t, strings.ToLower_ascii t
                ∈ List.map strings.ToLower_ascii ["ASSIGNED"])
     ["Assigned"] ∧
   List.map strings.ToLower_ascii ["bug"; "A/B"]
   ≡ₚ List.map strings.ToLower_ascii (GetTags issue1_Bug) ∧
   Forall (λ t, strings.ToLower_ascii t
                ∉ List.map strings.ToLower_ascii ["ASSIGNED"])
     (GetTags issue1_Bug) ∧
   ops_for "a/b#1"
     (run (toSet [issue1_Bug]) (toSet [task1_assigned]) ["ASSIGNED"])
   = []) ∧
  (keyed_by_Key (toSet [issue1_assigned]) ∧
   keyed_by_Key (toSet [task1_assigned]) ∧
   "assigned" ∈ GetTags issue1_assigned ∧
   strings.ToLower_ascii "assigned"
   ∈ List.map strings.ToLower_ascii ["ASSIGNED"] ∧
   ops_for "a/b#1"
     (run (toSet [issue1_assigned]) (toSet [task1_assigned]) ["ASSIGNED"])
   = [Op Remove (OfCurrent task1_assigned);
      Op Add (OfDesired issue1_assigned)]).
Proof.
  assert (keyed_by_Key (toSet [issue1_Bug])) as Hd by apply toSet_keyed.
  assert (keyed_by_Key (toSet [issue1_assigned])) as Hd'
    by apply toSet_keyed.
  assert (keyed_by_Key (toSet [task1_assigned])) as Hc
    by apply toSet_keyed.
  pose proof (returns_run (toSet [issue1_Bug]) (toSet [task1_assigned])
                ["ASSIGNED"]) as Hr.
  pose proof (returns_run (toSet [issue1_assigned])
                (toSet [task1_assigned]) ["ASSIGNED"]) as Hr'.
  assert (GetTags task1_assigned ≡ₚ ["bug"; "A/B"] ++ ["Assigned"])
    as Hperm by reflexivity.
  assert (Forall (λ t, strings.ToLower_ascii t
                       ∈ List.map strings.ToLower_ascii ["ASSIGNED"])
            ["Assigned"]) as Hex.
  { repeat constructor. }
  assert (List.map strings.ToLower_ascii ["bug"; "A/B"]
          ≡ₚ List.map strings.ToLower_ascii (GetTags issue1_Bug))
    as Hkept by reflexivity.
  assert (Forall (λ t, strings.ToLower_ascii t
                       ∉ List.map strings.ToLower_ascii ["ASSIGNED"])
            (GetTags issue1_Bug)) as Hfree.
  { repeat constructor; vm_compute; intros Hin;
      repeat (apply elem_of_cons in Hin as [Hin|Hin]; [discriminate|]);
      by apply elem_of_nil in Hin. }
  assert ("assigned" ∈ GetTags issue1_assigned) as Hin.
  { vm_compute. apply list_elem_of_further, list_elem_of_here. }
  assert (strings.ToLower_ascii "assigned"
          ∈ List.map strings.ToLower_ascii ["ASSIGNED"]) as Hign.
  { vm_compute. apply list_elem_of_here. }
  split.
  - split; [exact Hd|]. split; [exact Hc|]. split; [exact Hr|].
    split; [exact Hperm|]. split; [exact Hex|]. split; [exact Hkept|].
    split; [exact Hfree|].
    exact (proj2 (proj1 (proj2 (proj2
             (Delta_ignore_list strings.ToLower_ascii _ _ _ _ "a/b#1"
                issue1_Bug task1_assigned Hd Hc Hr eq_refl eq_refl)))
             ["bug"; "A/B"] ["Assigned"] Hperm Hex) Hkept Hfree).
  - split; [exact Hd'|]. split; [exact Hc|]. split; [exact Hin|].
    split; [exact Hign|].
    exact (proj2 (proj2 (proj2
             (Delta_ignore_list strings.ToLower_ascii _ _ _ _ "a/b#1"
                issue1_assigned task1_assigned Hd' Hc Hr' eq_refl
                eq_refl))) "assigned" Hin Hign).
Defined.

Lemma Delta_missing_in_current_witness :
  (keyed_by_Key desired_two ∧ keyed_by_Key current_two ∧
   desired_two !! "a/b#3" = Some issue3 ∧ current_two !! "a/b#3" = None ∧
   ops_for "a/b#3" (run desired_two current_two [])
   = [Op Add (OfDesired issue3)] ∧
   ops_for "a/b#3" (run_membership desired_two current_two)
   = [Op Add (OfDesired issue3)]) ∧
  run desired_two ∅ []
  ≡ₚ (λ kv, Op Add (OfDesired kv.2)) <$> map_to_list desired_two ∧
  run_membership desired_two ∅
  ≡ₚ (λ kv, Op Add (OfDesired kv.2)) <$> map_to_list desired_two.
Proof.
  assert (keyed_by_Key desired_two) as Hd by apply toSet_keyed.
  assert (keyed_by_Key current_two) as Hc by apply toSet_keyed.
  destruct (Delta_missing_in_current strings.ToLower_ascii
              desired_two current_two []) as (H1 & _ & H3 & _).
  destruct (Delta_missing_in_current strings.ToLower_ascii
              desired_two (∅ : gmap string omnifocus.Task) [])
    as (_ & H2 & _ & H4).
  split; [|split].
  - split; [exact Hd|]. split; [exact Hc|].
    split; [reflexivity|]. split; [reflexivity|]. split.
    + exact (H1 _ "a/b#3" issue3 Hd Hc (returns_run _ _ _)
               eq_refl eq_refl).
    + exact (H3 _ "a/b#3" issue3 Hd Hc (returns_run_membership _ _)
               eq_refl eq_refl).
  - exact (H2 _ eq_refl (returns_run _ _ _)).
  - exact (H4 _ eq_refl (returns_run_membership _ _)).
Defined.

Lemma Delta_extra_in_current_witness :
  (keyed_by_Key desired_two ∧ keyed_by_Key current_two ∧
   current_two !! "a/b#2" = Some task2 ∧ desired_two !! "a/b#2" = None ∧
   ops_for "a/b#2" (run desired_two current_two [])
   = [Op Remove (OfCurrent task2)] ∧
   ops_for "a/b#2" (run_membership desired_two current_two)
   = [Op Remove (OfCurrent task2)]) ∧
  run ∅ current_two []
  ≡ₚ (λ kv, Op Remove (OfCurrent kv.2)) <$> map_to_list current_two ∧
  run_membership ∅ current_two
  ≡ₚ (λ kv, Op Remove (OfCurrent kv.2)) <$> map_to_list current_two.
Proof.
  assert (keyed_by_Key desired_two) as Hd by apply toSet_keyed.
  assert (keyed_by_Key current_two) as Hc by apply toSet_keyed.
  destruct (Delta_extra_in_current strings.ToLower_ascii
              desired_two current_two []) as (H1 & _ & H3 & _).
  destruct (Delta_extra_in_current strings.ToLower_ascii
              (∅ : gmap string gh.GitHubItem) current_two [])
    as (_ & H2 & _ & H4).
  split; [|split].
  - split; [exact Hd|]. split; [exact Hc|].
    split; [reflexivity|]. split; [reflexivity|]. split.
    + exact (H1 _ "a/b#2" task2 Hd Hc (returns_run _ _ _)
               eq_refl eq_refl).
    + exact (H3 _ "a/b#2" task2 Hd Hc (returns_run_membership _ _)
               eq_refl eq_refl).
  - exact (H2 _ eq_refl (returns_run _ _ _)).
  - exact (H4 _ eq_refl (returns_run_membership _ _)).
Defined.

Lemma toSet_spec_witness :
  ([task1; task2; task1_later] = [] ++ task1 :: [task2] ++ task1_later :: []
   ∧ Key task1 = Key task1_later
   ∧ Forall (λ x : omnifocus.Task, Key x ≠ Key task1_later) []
   ∧ toSet [task1; task2; task1_later] !! Key task1 = Some task1_later) ∧
  toSet ([] : list omnifocus.Task) = ∅ ∧
  (last [task1; task1_later] = Some task1_later
   ∧ Forall (λ x, Key x = "a/b#1") [task1; task1_later]
   ∧ toSet [task1; task1_later] = {[ "a/b#1" := task1_later ]}).
Proof.
  assert (Forall (λ x : omnifocus.Task, Key x = "a/b#1")
            [task1; task1_later]) as Hall.
  { repeat constructor. }
  split; [|split].
  - split; [reflexivity|]. split; [reflexivity|]. split; [constructor|].
    exact (proj1 (proj2 (proj2 (proj2
             (toSet_spec [task1; task2; task1_later]))))
             [] task1 [task2] task1_later [] eq_refl eq_refl
             (Forall_nil_2 _)).
  - exact (proj1 (proj2 (proj2 (proj2 (proj2
             (toSet_spec ([] : list omnifocus.Task)))))) eq_refl).
  - split; [reflexivity|]. split; [exact Hall|].
    exact (proj2 (proj2 (proj2 (proj2 (proj2
             (toSet_spec [task1; task1_later])))))
             "a/b#1" task1_later eq_refl Hall).
Defined.

Lemma Task_Key_spec_witness :
  (omnifocus.Name task1 = "a/b#1" +:+ " " +:+ "Fix it"
   ∧ free_of " " "a/b#1"
   ∧ omnifocus.Key task1 = "a/b#1") ∧
  (free_of " " (omnifocus.Name task_unkeyed)
   ∧ omnifocus.Key task_unkeyed = "unkeyed").
Proof.
  assert (free_of " " "a/b#1") as Hpre.
  { repeat split; discriminate. }
  assert (free_of " " (omnifocus.Name task_unkeyed)) as Hfree.
  { repeat split; discriminate. }
  split.
  - split; [reflexivity|]. split; [exact Hpre|].
    exact (proj1 (proj2 (Task_Key_spec task1))
             "a/b#1" "Fix it" eq_refl Hpre).
  - split; [exact Hfree|].
    exact (proj1 (proj2 (proj2 (Task_Key_spec task_unkeyed))) Hfree).
Defined.

Lemma GetTags_spec_witness :
  (gh.Milestone issue4 ≠ ""
   ∧ gh.GetTags issue4 = ["bug"; "Bug"; "a/b"; "milestone: v1"]) ∧
  (gh.Milestone issue1_twice = ""
   ∧ gh.GetTags issue1_twice = ["bug"; "Bug"; "a/b"]).
Proof.
  assert (gh.Milestone issue4 ≠ "") as Hm by discriminate.
  split.
  - split; [exact Hm|]. exact (proj1 (GetTags_spec issue4) Hm).
  - split; [reflexivity|].
    exact (proj1 (proj2 (GetTags_spec issue1_twice)) eq_refl).
Defined.

End instances.

(** * Further properties *)

(** ** How the versions of [Delta] relate, and what a result holds *)

Section delta_versions.

Variable ToLower : string → string.

Context {D C : Type} `{!Keyed D, !Keyed C}.

Implicit Types (desired : gmap string D) (current : gmap string C).
Implicit Types (ops : list (Operation D C)) (k : string).
Implicit Types (ign : list string) (v : D) (c : C).

Lemma exact_foldl current ops (l : list (string * D)) :
  foldl (exact_tags.desired_step current) ops l
  = ops ++ flat_map (exact_tags.desired_step current []) l.
Proof.
  revert ops. induction l as [|[k v] l IH]; intros ops; simpl.
  - by rewrite app_nil_r.
  - rewrite IH.
    destruct (current !! k); [case_decide|]; simpl;
      by rewrite <- ?app_assoc, ?app_nil_r.
Qed.

Lemma exact_Delta_flat_map drange crange desired current :
  exact_tags.Delta drange crange desired current
  = flat_map (exact_tags.desired_step current []) drange
    ++ flat_map (current_ops desired) crange.
Proof.
  unfold exact_tags.Delta. by rewrite foldl_current_step, exact_foldl.
Qed.

Lemma lower_fixed (l : list string) :
  Forall (λ t, ToLower t = t) l → lower ToLower l = l.
Proof.
  unfold lower. induction 1 as [|t l Ht _ IH]; simpl; [done|].
  by rewrite Ht, IH.
Qed.

Lemma deleteFunc_nothing (l : list string) :
  deleteFunc l (λ s, slices.Contains [] s) = l.
Proof. apply deleteFunc_none_ignored, Forall_forall. intros s _. apply not_elem_of_nil. Qed.

(** X1 — On tags that lower-casing leaves alone, [Delta] with an empty
    ignore list returns what the exact-comparison [Delta] returns, for the
    same enumerations of the maps. *)
Theorem Delta_extends_exact drange crange desired current :
  Forall (λ kv, Forall (λ t, ToLower t = t) (GetTags kv.2)) drange →
  (∀ k c, current !! k = Some c → Forall (λ t, ToLower t = t) (GetTags c)) →
  Delta ToLower drange crange desired current []
  = exact_tags.Delta drange crange desired current.
Proof.
  intros Hd Hc. rewrite Delta_flat_map, exact_Delta_flat_map. f_equal.
  induction Hd as [|[k v] l Hv _ IH]; simpl; [done|]. rewrite IH. f_equal.
  unfold desired_ops, desired_step, exact_tags.desired_step. simpl in *.
  destruct (current !! k) as [c|] eqn:Hk; [|done].
  unfold vTags, cTags, toLower. simpl.
  by rewrite deleteFunc_nothing, !lower_fixed by eauto.
Qed.

Lemma sublist_flat_map {A B} (f g : A → list B) (l : list A) :
  (∀ x, sublist (f x) (g x)) → sublist (flat_map f l) (flat_map g l).
Proof.
  intros Hfg. induction l as [|x l IH]; simpl; [done|].
  by apply sublist_app.
Qed.

(** X2 — The tag comparison only adds operations: for the same
    enumerations, the result of the membership-only [Delta] is a
    subsequence of the result of [Delta], and the two results are equal
    when the tags of every key present on both sides are equivalent. *)
Theorem membership_sublist_Delta drange crange desired current ign :
  sublist (membership.Delta drange crange desired current)
          (Delta ToLower drange crange desired current ign) ∧
  ((∀ k v c, (k, v) ∈ drange → current !! k = Some c →
             vTags ToLower v = cTags ToLower (toLower ToLower ign) c) →
   Delta ToLower drange crange desired current ign
   = membership.Delta drange crange desired current).
Proof.
  rewrite Delta_flat_map, membership_Delta_flat_map. split.
  - apply sublist_app; [|done]. apply sublist_flat_map. intros [k v].
    unfold membership_ops, desired_ops, desired_step. simpl.
    destruct (current !! k); [|done]. apply sublist_nil_l.
  - intros Hsame. f_equal.
    induction drange as [|[k v] l IH]; simpl; [done|].
    rewrite IH by (intros ? ? ? ? ?; eapply Hsame; [by right|done]). f_equal.
    unfold membership_ops, desired_ops, desired_step. simpl.
    destruct (current !! k) as [c|] eqn:Hk; [|done].
    rewrite decide_False; [done|]. rewrite Compare_zero.
    intros []. eapply Hsame; [by left|done].
Qed.

(** X3 — What the caller may assume about a result: an Add carries an
    item of [desired] and a Remove carries an item of [current], never the
    other way round. *)
Theorem Delta_payloads desired current ign ops op :
  Delta_returns ToLower desired current ign ops → op ∈ ops →
  (OpType op = Add ∧ ∃ k v, desired !! k = Some v ∧ Item op = OfDesired v) ∨
  (OpType op = Remove ∧
   ∃ k c, current !! k = Some c ∧ Item op = OfCurrent c).
Proof.
  intros (drange & crange & Hdr & Hcr & ->) Hop.
  rewrite Delta_flat_map in Hop.
  apply elem_of_app in Hop as [Hop|Hop];
    apply list_elem_of_In, in_flat_map in Hop as ([k x] & Hin & Hop);
    apply list_elem_of_In in Hin, Hop.
  - apply (range_lookup desired) in Hin; [|done].
    unfold desired_ops, desired_step in Hop.
    destruct (current !! k) as [c|] eqn:Hk; [case_decide|].
    + apply elem_of_cons in Hop as [->|Hop]; [right; eauto|].
      apply list_elem_of_singleton in Hop as ->. left; eauto.
    + by apply elem_of_nil in Hop.
    + apply list_elem_of_singleton in Hop as ->. left; eauto.
  - apply (range_lookup current) in Hin; [|done].
    unfold current_ops, current_step in Hop.
    destruct (desired !! k) as [v|] eqn:Hv.
    + by apply elem_of_nil in Hop.
    + apply list_elem_of_singleton in Hop as ->. right; eauto.
Qed.

(** No operation at all when every key is on both sides with equivalent
    tags. *)
Lemma Delta_nil desired current ign ops :
  dom desired = dom current →
  (∀ k v c, desired !! k = Some v → current !! k = Some c →
            vTags ToLower v = cTags ToLower (toLower ToLower ign) c) →
  Delta_returns ToLower desired current ign ops → ops = [].
Proof.
  intros Hdom Htags (drange & crange & Hdr & Hcr & ->).
  rewrite Delta_flat_map.
  rewrite !flat_map_nil; [done| |]; apply Forall_forall.
  - intros [k c] Hin. apply (range_lookup current) in Hin; [|done].
    apply current_ops_present. apply elem_of_dom. rewrite Hdom.
    by apply elem_of_dom.
  - intros [k v] Hin. apply (range_lookup desired) in Hin; [|done].
    assert (is_Some (current !! k)) as [c Hk].
    { apply elem_of_dom. rewrite <- Hdom. by apply elem_of_dom. }
    apply (desired_ops_unchanged _ _ _ _ _ c); [done|]. by apply (Htags k).
Qed.

Lemma flat_map_eq_nil {A B} (f : A → list B) (l : list A) :
  flat_map f l = [] → Forall (λ x, f x = []) l.
Proof.
  induction l as [|x l IH]; simpl; [by constructor|].
  intros [Hx Hl]%app_eq_nil. constructor; auto.
Qed.

(** X20 — An empty result means the two sides agree, and only then:
    [Delta] returns no operation exactly when [desired] and [current] have
    the same keys and the tags of every key are equivalent. *)
Theorem Delta_empty_iff desired current ign ops :
  Delta_returns ToLower desired current ign ops →
  ops = [] ↔
  dom desired = dom current ∧
  ∀ k v c, desired !! k = Some v → current !! k = Some c →
           vTags ToLower v = cTags ToLower (toLower ToLower ign) c.
Proof.
  intros Hops. split; [|intros [Hdom Htags]; by eapply Delta_nil].
  destruct Hops as (drange & crange & Hdr & Hcr & ->).
  rewrite Delta_flat_map. intros [Hd Hc]%app_eq_nil.
  apply flat_map_eq_nil in Hd. apply flat_map_eq_nil in Hc.
  rewrite Forall_forall in Hd. rewrite Forall_forall in Hc.
  assert (∀ k v, desired !! k = Some v →
                 ∃ c, current !! k = Some c ∧
                      vTags ToLower v
                      = cTags ToLower (toLower ToLower ign) c) as Hdesired.
  { intros k v Hv. apply (range_lookup desired drange) in Hv; [|done].
    apply Hd in Hv. unfold desired_ops, desired_step in Hv.
    destruct (current !! k) as [c|]; [|done]. exists c. split; [done|].
    case_decide as Hcmp; [done|]. by apply Compare_zero. }
  assert (∀ k c, current !! k = Some c → is_Some (desired !! k)) as Hcurrent.
  { intros k c Hk. apply (range_lookup current crange) in Hk; [|done].
    apply Hc in Hk. unfold current_ops, current_step in Hk.
    by destruct (desired !! k). }
  split.
  - apply set_eq. intros k. rewrite !elem_of_dom. split.
    + intros [v Hv]. destruct (Hdesired k v Hv) as (c & Hk & _). by exists c.
    + intros [c Hk]. by eapply Hcurrent.
  - intros k v c Hv Hk. destruct (Hdesired k v Hv) as (c' & Hk' & Heq).
    congruence.
Qed.

End delta_versions.

Section delta_again.

Variable ToLower : string → string.

Context {D C : Type} `{!Keyed D, !Keyed C}.

(** X4 — Idempotence.  Take maps that store every item under its key, a
    result [ops] of [Delta] and the collection obtained by applying [ops]
    to [current].  If no tag of a desired item is, once lower-cased, on
    the lower-cased ignore list, then [Delta] called again with that
    collection as the current state returns no operation. *)
Theorem Delta_idempotent (desired : gmap string D) (current : gmap string C)
    (ign : list string) (ops : list (Operation D C))
    (again : list (Operation D (Boxed D C))) :
  keyed_by_Key desired → keyed_by_Key current →
  Delta_returns ToLower desired current ign ops →
  (∀ k v, desired !! k = Some v →
          Forall (λ t, ToLower t ∉ toLower ToLower ign) (GetTags v)) →
  Delta_returns ToLower desired (apply_ops (initial current) ops) ign again →
  again = [].
Proof.
  intros Hd Hc Hops Hfree Hagain.
  pose proof (converged_lookup ToLower desired current ign ops) as Hlook.
  apply (Delta_nil ToLower desired (apply_ops (initial current) ops) ign);
    [|intros k v b Hv Hb|done].
  - apply set_eq. intros k. rewrite !elem_of_dom, Hlook by done.
    destruct (desired !! k) as [v|]; [|by rewrite !is_Some_alt].
    destruct (current !! k) as [c|]; [case_decide|]; by rewrite !is_Some_alt.
  - rewrite Hlook, Hv in Hb by done.
    assert (vTags ToLower v
            = cTags ToLower (toLower ToLower ign) (OfDesired v : Boxed D C))
      as Hinserted.
    { unfold vTags, cTags. simpl.
      rewrite deleteFunc_none_ignored; [done|].
      apply lower_Forall. by apply (Hfree k). }
    destruct (current !! k) as [c|]; [case_decide as Heq|];
      injection Hb as <-; done.
Qed.

End delta_again.

(** ** Tasks created from GitHub items *)

Section created_tasks.

Variable ToLower : string → string.
Variable EqualFold : string → string → bool.
Variable Year : Z.
Variable Date : Z → Z → Z → Z → Z → Z → Z → Z.

Implicit Types (og : gateway.Gateway) (t : gh.GitHubItem).
Implicit Types (r : gateway.NewOmnifocusTask) (c : omnifocus.Task).

Lemma string_app_cons (a : ascii) (s1 s2 : string) :
  String a s1 +:+ s2 = String a (s1 +:+ s2).
Proof. reflexivity. Qed.

Lemma string_app_cons_assoc (pre post rest : string) (a : ascii) :
  (pre +:+ String a post) +:+ rest = pre +:+ String a (post +:+ rest).
Proof.
  induction pre as [|b pre IH]; [done|].
  by rewrite !string_app_cons, IH.
Qed.

Lemma string_app_cons_ne (pre post : string) (a : ascii) :
  pre ≠ pre +:+ String a post.
Proof.
  induction pre as [|b pre IH]; [done|].
  rewrite string_app_cons. by intros [= ?].
Qed.

(** The key read back from a name made of a key, a space and a title. *)
Lemma Key_of_created_name c (key title : string) :
  omnifocus.Name c = key +:+ " " +:+ title →
  omnifocus.Key c = key ↔ free_of " " key.
Proof.
  intros Hname. unfold omnifocus.Key, omnifocus.Key_indexed. rewrite Hname.
  change (key +:+ " " +:+ title) with (key +:+ String " " title).
  unfold strings.SplitN.
  destruct (first_separator " " key) as [Hfree|(pre & post & -> & Hpre)].
  - by rewrite cut_byte_first.
  - rewrite string_app_cons_assoc, cut_byte_first by done. simpl. split.
    + intros Heq. by apply string_app_cons_ne in Heq.
    + intros Hfree. exfalso. clear -Hfree.
      induction pre as [|b pre IH]; simpl in Hfree; [by destruct Hfree|].
      apply IH. by destruct Hfree.
Qed.

Lemma AddIssue_Name og t r :
  gateway.AddIssue EqualFold Year Date og t = Some r →
  gateway.Name r = gh.Key t +:+ " " +:+ gh.Title t.
Proof.
  unfold gateway.AddIssue.
  destruct (_ && _); [destruct (gateway.deadline _ _ _ _) as [[?|?]|]|];
    intros [= <-]; done.
Qed.

Lemma AddIssue_Tags og t r :
  gateway.AddIssue EqualFold Year Date og t = Some r →
  gateway.Tags r
  = [gateway.AppTag og; gateway.AssignedTag og; gh.Repo t] ++ gh.Labels t
    ++ (if decide (gh.Milestone t ≠ "")
        then [gh.Sprintf_milestone (gh.Milestone t)] else []).
Proof.
  unfold gateway.AddIssue.
  destruct (_ && _); [destruct (gateway.deadline _ _ _ _) as [[?|?]|]|];
    intros [= <-]; simpl; case_decide; by rewrite ?app_nil_r.
Qed.

(** X5 — Key round trip.  A task whose name is the name that [AddIssue],
    [AddPR], [AddAuthoredPR] or [AddNotification] gives to the task of an
    item has the key of the item exactly when that key has no space. *)
Theorem created_task_Key og t r c :
  gateway.AddIssue EqualFold Year Date og t = Some r ∨
  r = gateway.AddPR og t ∨ r = gateway.AddAuthoredPR og t ∨
  r = gateway.AddNotification og t →
  omnifocus.Name c = gateway.Name r →
  Key c = Key t ↔ free_of " " (Key t).
Proof.
  intros Hr Hname. apply (Key_of_created_name c (gh.Key t) (gh.Title t)).
  rewrite Hname. destruct Hr as [Hr | [ -> | [ -> | -> ] ] ].
  - by apply AddIssue_Name in Hr.
  - done.
  - done.
  - unfold gateway.AddNotification.
    by destruct (gateway.SetNotificationsDueDate og).
Qed.

(** A current item whose tags are those of the desired item plus tags of
    the ignore list compares equal to it, when no tag of the desired item
    is on the ignore list. *)
Lemma bookkeeping_tags_equivalent (ign book : list string) t c :
  omnifocus.Tags c ≡ₚ book ++ gh.GetTags t →
  Forall (on_ignore_list ToLower ign) book →
  Forall (λ x, ¬ on_ignore_list ToLower ign x) (gh.GetTags t) →
  vTags ToLower t = cTags ToLower (toLower ToLower ign) c.
Proof.
  intros Hperm Hbook Hfree.
  rewrite (cTags_without_ignored ToLower ign (gh.GetTags t) book c).
  - unfold vTags. f_equal. symmetry. apply deleteFunc_none_ignored.
    by apply lower_Forall.
  - simpl. unfold omnifocus.GetTags. rewrite Hperm. apply Permutation_app_comm.
  - done.
Qed.

(** X6 — A created task is left alone.  Let [r] be the request that
    [AddIssue], [AddPR], [AddAuthoredPR] or [AddNotification] builds for
    the item [t], and [c] a task with the tags of [r], in any order.  If
    the application tag and the type tag of the request are on the ignore
    list, no tag of [t] is, and (for the pull requests) [t] has no
    milestone or (for a notification) neither labels nor a milestone, then
    [Delta] has no operation for a key under which [desired] holds [t] and
    [current] holds [c]. *)
Theorem created_task_stable og t r c (type_tag : string)
    (desired : gmap string gh.GitHubItem)
    (current : gmap string omnifocus.Task) ign ops k :
  (gateway.AddIssue EqualFold Year Date og t = Some r ∧
   type_tag = gateway.AssignedTag og) ∨
  (r = gateway.AddPR og t ∧ gh.Milestone t = "" ∧
   type_tag = gateway.ReviewTag og) ∨
  (r = gateway.AddAuthoredPR og t ∧ gh.Milestone t = "" ∧
   type_tag = gateway.PendingChangesTag og) ∨
  (r = gateway.AddNotification og t ∧ gh.Labels t = [] ∧
   gh.Milestone t = "" ∧ type_tag = gateway.NotificationTag og) →
  omnifocus.Tags c ≡ₚ gateway.Tags r →
  on_ignore_list ToLower ign (gateway.AppTag og) →
  on_ignore_list ToLower ign type_tag →
  Forall (λ x, ¬ on_ignore_list ToLower ign x) (gh.GetTags t) →
  keyed_by_Key desired → keyed_by_Key current →
  desired !! k = Some t → current !! k = Some c →
  Delta_returns ToLower desired current ign ops →
  ops_for k ops = [].
Proof.
  intros Hr Htags Happ Htype Hfree Hd Hc Hv Hk Hops.
  rewrite (ops_for_present ToLower desired current ign ops k t c) by done.
  rewrite decide_True; [done|].
  apply (bookkeeping_tags_equivalent ign [gateway.AppTag og; type_tag]);
    [|by repeat constructor|done].
  rewrite Htags. unfold gh.GetTags.
  destruct Hr as [[Hr ->] | [(-> & Hm & ->) | [(-> & Hm & ->)
                 | (-> & Hl & Hm & ->)]]].
  - rewrite (AddIssue_Tags og t r Hr). simpl. case_decide.
    + apply perm_skip, perm_skip.
      change (gh.Repo t :: gh.Labels t ++ [gh.Sprintf_milestone (gh.Milestone t)])
        with ([gh.Repo t] ++ gh.Labels t
              ++ [gh.Sprintf_milestone (gh.Milestone t)]).
      rewrite (assoc_L (++)), (Permutation_app_comm [gh.Repo t]).
      by rewrite <- (assoc_L (++)).
    + apply perm_skip, perm_skip. rewrite app_nil_r.
      by rewrite <- Permutation_cons_append.
  - simpl. by rewrite Hm, decide_False by (by intros []).
  - simpl. by rewrite Hm, decide_False by (by intros []).
  - unfold gateway.AddNotification.
    rewrite Hm, Hl, decide_False by (by intros []).
    by destruct (gateway.SetNotificationsDueDate og).
Qed.



End created_tasks.

(** ** Due dates of Task Master issues *)

Section deadlines.

Variable EqualFold : string → string → bool.
Variable Year : Z.
Variable Date : Z → Z → Z → Z → Z → Z → Z → Z.

Lemma string_length_app (s1 s2 : string) :
  String.length (s1 +:+ s2) = (String.length s1 + String.length s2)%nat.
Proof.
  induction s1 as [|a s1 IH]; [done|].
  rewrite string_app_cons. simpl. by rewrite IH.
Qed.

Lemma substring_all (s : string) : substring 0 (String.length s) s = s.
Proof. induction s as [|a s IH]; [done|]. simpl. by rewrite IH. Qed.

Lemma substring_app_l (s1 s2 : string) :
  substring 0 (String.length s1) (s1 +:+ s2) = s1.
Proof.
  induction s1 as [|a s1 IH]; [by destruct s2|].
  rewrite string_app_cons. simpl. by rewrite IH.
Qed.

Lemma substring_app_r (s1 s2 : string) :
  substring (String.length s1) (String.length s2) (s1 +:+ s2) = s2.
Proof.
  induction s1 as [|a s1 IH]; [apply substring_all|].
  rewrite string_app_cons. simpl. by rewrite IH.
Qed.

Lemma substring_tail (s suffix : string) (n : nat) :
  (n ≤ String.length s)%nat →
  substring (String.length s - n) n s = suffix →
  ∃ head, s = head +:+ suffix.
Proof.
  revert n. induction s as [|a s IH]; intros n Hlen Hsub.
  - simpl in *. destruct n; [|lia]. simpl in Hsub. subst. by exists "".
  - destruct (decide (n = S (String.length s))) as [->|Hn].
    + simpl in Hsub. rewrite Nat.sub_diag in Hsub. simpl in Hsub.
      rewrite substring_all in Hsub. subst. by exists "".
    + simpl in Hlen.
      replace (String.length (String a s) - n)%nat
        with (S (String.length s - n)) in Hsub by (simpl; lia).
      simpl in Hsub. destruct (IH n) as [head ->]; [lia|done|].
      by exists (String a head).
Qed.

(** A string with a suffix is what precedes the suffix, and the suffix. *)
Lemma HasSuffix_split (s suffix : string) :
  gostrings.HasSuffix s suffix = true →
  ∃ head, s = head +:+ suffix.
Proof.
  unfold gostrings.HasSuffix. intros [Hlen Hsub]%andb_prop.
  apply bool_decide_eq_true in Hlen, Hsub.
  by apply (substring_tail s suffix (String.length suffix)).
Qed.

Lemma HasSuffix_app (head suffix : string) :
  gostrings.HasSuffix (head +:+ suffix) suffix = true.
Proof.
  unfold gostrings.HasSuffix. rewrite string_length_app.
  apply andb_true_intro. split; apply bool_decide_eq_true; [lia|].
  replace (String.length head + String.length suffix
           - String.length suffix)%nat with (String.length head) by lia.
  apply substring_app_r.
Qed.

Lemma isTimeRange_split (tag : string) :
  gateway.isTimeRange tag = true ↔
  ∃ head suffix, tag = head +:+ suffix ∧ suffix ∈ ["H"; "Q"; "W"].
Proof.
  unfold gateway.isTimeRange, gateway.priorityOrderSuffix. split.
  - intros (suffix & Hin & Hsuf)%existsb_exists.
    apply HasSuffix_split in Hsuf as [head ->].
    exists head, suffix. split; [done|]. by apply list_elem_of_In.
  - intros (head & suffix & -> & Hin). apply existsb_exists.
    exists suffix. split; [by apply list_elem_of_In|]. apply HasSuffix_app.
Qed.

(** What [getEndOfTimePeriod] does with a number and a suffix letter. *)
Lemma getEndOfTimePeriod_split (head : string) (a : ascii) :
  gateway.getEndOfTimePeriod Year Date (head +:+ String a "") =
    match strconv.Atoi head with
    | None => Some (inl gateway.ErrAtoi)
    | Some num =>
        if decide (a = "H"%char) then
          Some (inr (Date Year (wrap_int (wrap_int (6 * num) + 1)) 1
                       (-1) (-1) (-1) (-1)))
        else if decide (a = "Q"%char) then
          Some (inr (Date Year (wrap_int (wrap_int (3 * num) + 1)) 1
                       (-1) (-1) (-1) (-1)))
        else if decide (a = "W"%char) then
          Some (inr (Date Year 1 (wrap_int (wrap_int (7 * num) + 1))
                       (-1) (-1) (-1) (-1)))
        else Some (inl gateway.ErrTimeIncrement)
    end.
Proof.
  unfold gateway.getEndOfTimePeriod, gostrings.slice_from, gostrings.slice_to.
  rewrite string_length_app. simpl String.length.
  replace (Z.of_nat (String.length head + 1) - 1)
    with (Z.of_nat (String.length head)) by lia.
  rewrite !decide_True by lia. rewrite Nat2Z.id.
  replace (String.length head + 1 - String.length head)%nat
    with (String.length (String a "")) by (simpl; lia).
  rewrite substring_app_r, substring_app_l.
  destruct (strconv.Atoi head) as [num|]; [|done].
  repeat (case_decide; simplify_eq; try done).
Qed.

Lemma deadline_skip (pre tags : list string) :
  Forall (gateway.passed_over EqualFold) pre →
  gateway.deadline EqualFold Year Date (pre ++ tags)
  = gateway.deadline EqualFold Year Date tags.
Proof.
  induction 1 as [|tag pre [Hrange Hmonth] _ IH]; [done|]. simpl.
  rewrite Hrange. destruct (gateway.isMonth EqualFold tag) as [res month].
  simpl in Hmonth. by rewrite Hmonth.
Qed.

Lemma wrap_int_small (z : Z) : - 2 ^ 63 ≤ z < 2 ^ 63 → wrap_int z = z.
Proof. intros Hz. unfold wrap_int. rewrite Z.mod_small; lia. Qed.

Lemma isMonth_from_found (months : list string) (tag m : string)
    (idx : Z) (i : nat) :
  months !! i = Some m → EqualFold m tag = true →
  (∀ j m', (j < i)%nat → months !! j = Some m' → EqualFold m' tag = false) →
  gateway.isMonth_from EqualFold idx months tag = (true, idx + Z.of_nat i).
Proof.
  revert idx i. induction months as [|m0 months IH]; intros idx i Hi Hm Hbefore.
  - by rewrite lookup_nil in Hi.
  - destruct i as [|i]; simpl in *.
    + injection Hi as ->. rewrite Hm. f_equal. lia.
    + rewrite (Hbefore 0%nat m0) by (done || lia).
      rewrite (IH (idx + 1) i); [f_equal; lia|done..|].
      intros j m' Hj Hm'. apply (Hbefore (S j) m'); [lia|done].
Qed.

Lemma deadline_result (tags : list string) :
  ∃ res,
    gateway.deadline EqualFold Year Date tags = Some res ∧
    res ≠ inl gateway.ErrTimeIncrement ∧
    (res = inl gateway.ErrNoDeadline ↔
     Forall (gateway.passed_over EqualFold) tags).
Proof.
  induction tags as [|tag tags (res & IH & Hinc & Hnone)]; simpl.
  { exists (inl gateway.ErrNoDeadline). by repeat split. }
  destruct (gateway.isTimeRange tag) eqn:Hrange.
  - assert (¬ Forall (gateway.passed_over EqualFold) (tag :: tags)) as Hnot.
    { intros [[? _] _]%Forall_cons. congruence. }
    apply isTimeRange_split in Hrange as (head & suffix & -> & Hin).
    assert (∃ a, suffix = String a "" ∧
                 (a = "H" ∨ a = "Q" ∨ a = "W")%char) as (a & -> & Ha).
    { repeat (apply elem_of_cons in Hin as [->|Hin]; [eexists; eauto|]).
      by apply elem_of_nil in Hin. }
    rewrite getEndOfTimePeriod_split.
    destruct (strconv.Atoi head) as [num|].
    + destruct Ha as [ -> | [ -> | -> ] ]; simpl; eexists; (split; [done|]);
        (split; [done|]); split; (done || by intros ?).
    + eexists. split; [done|]. split; [done|]. split; (done || by intros ?).
  - destruct (gateway.isMonth EqualFold tag) as [month_found month] eqn:Hmonth.
    destruct month_found.
    + eexists. split; [done|]. split; [done|]. split; [done|].
      intros [[_ Hm] _]%Forall_cons. rewrite Hmonth in Hm. done.
    + exists res. split; [done|]. split; [done|]. rewrite Hnone.
      rewrite Forall_cons. unfold gateway.passed_over at 2.
      rewrite Hrange, Hmonth. simpl. split; [by intros ?|by intros [_ ?]].
Qed.

(** X8 — [deadline] never panics and never fails with the "time
    increment" error: [getEndOfTimePeriod] is only reached with a tag that
    ends in one of its three letters.  It fails with "no deadline" exactly
    when every tag is passed over. *)
Theorem deadline_outcome (tags : list string) :
  ∃ res,
    gateway.deadline EqualFold Year Date tags = Some res ∧
    res ≠ inl gateway.ErrTimeIncrement ∧
    (res = inl gateway.ErrNoDeadline ↔
     Forall (gateway.passed_over EqualFold) tags).
Proof. exact (deadline_result tags). Qed.

(** X9 — The first tag that is not passed over decides, whatever follows
    it; a tag is passed over when it neither ends in H, Q or W nor
    matches a month.  Let every tag of [pre] be passed over and the next
    tag end in H, Q or W.  When what precedes the letter is not a number
    the result is the error of [Atoi], even if a later tag names a period
    or a month.  When it is the number [num] (here of moderate size, so
    that nothing wraps), the due date is the time [-1:-1:-1.-000000001] of
    the first day of month [6 * num + 1] for H and [3 * num + 1] for Q,
    and of day [7 * num + 1] of January for W. *)
Theorem deadline_time_range (pre rest : list string) (head : string)
    (a : ascii) :
  Forall (gateway.passed_over EqualFold) pre →
  (a = "H" ∨ a = "Q" ∨ a = "W")%char →
  (strconv.Atoi head = None →
   gateway.deadline EqualFold Year Date (pre ++ (head +:+ String a "") :: rest)
   = Some (inl gateway.ErrAtoi)) ∧
  (∀ num, strconv.Atoi head = Some num → - 2 ^ 59 ≤ num ≤ 2 ^ 59 →
   gateway.deadline EqualFold Year Date (pre ++ (head +:+ String a "") :: rest)
   = Some (inr (if decide (a = "H"%char)
                then Date Year (6 * num + 1) 1 (-1) (-1) (-1) (-1)
                else if decide (a = "Q"%char)
                then Date Year (3 * num + 1) 1 (-1) (-1) (-1) (-1)
                else Date Year 1 (7 * num + 1) (-1) (-1) (-1) (-1)))).
Proof.
  intros Hpre Ha. rewrite deadline_skip by done. simpl.
  assert (gateway.isTimeRange (head +:+ String a "") = true) as ->.
  { apply isTimeRange_split. exists head, (String a ""). split; [done|].
    destruct Ha as [ -> | [ -> | -> ] ]; set_solver. }
  rewrite getEndOfTimePeriod_split. split.
  - by intros ->.
  - intros num -> Hnum.
    rewrite !(wrap_int_small (6 * num)), !(wrap_int_small (3 * num)),
      !(wrap_int_small (7 * num)) by lia.
    rewrite !wrap_int_small by lia.
    destruct Ha as [ -> | [ -> | -> ] ]; done.
Qed.

(** X10 — A month tag.  When the first tag that is not passed over
    matches the abbreviation at position [i] of the list of months
    (counted from 0, so position 0 is January), and does not end in H, Q
    or W, the due date is the time [-1:-1:-1.-000000001] of day 1 of
    month number [i + 1]: the month the tag names, not the one after
    it. *)
Theorem deadline_month (pre rest : list string) (tag m : string) (i : nat) :
  Forall (gateway.passed_over EqualFold) pre →
  gateway.isTimeRange tag = false →
  gateway.arrowMonthAbbrv !! i = Some m → EqualFold m tag = true →
  (∀ j m', (j < i)%nat → gateway.arrowMonthAbbrv !! j = Some m' →
           EqualFold m' tag = false) →
  gateway.deadline EqualFold Year Date (pre ++ tag :: rest)
  = Some (inr (Date Year (Z.of_nat i + 1) 1 (-1) (-1) (-1) (-1))) ∧
  (i < 12)%nat.
Proof.
  intros Hpre Hrange Hi Hm Hbefore. split.
  - rewrite deadline_skip by done. simpl. rewrite Hrange.
    unfold gateway.isMonth.
    rewrite (isMonth_from_found _ tag m 0 i) by done. simpl.
    unfold gateway.getEndOfMonth. by rewrite Z.add_0_l.
  - apply lookup_lt_Some in Hi. simpl in Hi. lia.
Qed.

(** X11 — [AddIssue] always builds a request.  It is filed in the
    assigned-issues project under the key, a space and the title, with
    the application tag, the assigned tag and the repository before the
    labels and the milestone tag.  The due date is set only when the
    gateway asks for Task Master due dates, a tag of the request matches
    the Task Master tag and [deadline] finds a date; it is 0 otherwise. *)
Theorem AddIssue_request (og : gateway.Gateway) (t : gh.GitHubItem) :
  ∃ r,
    gateway.AddIssue EqualFold Year Date og t = Some r ∧
    gateway.ProjectName r = gateway.AssignedProject og ∧
    gateway.Name r = gh.Key t +:+ " " +:+ gh.Title t ∧
    gateway.Note r = gh.HTMLURL t ∧
    gateway.Tags r
    = [gateway.AppTag og; gateway.AssignedTag og; gh.Repo t] ++ gh.Labels t
      ++ (if decide (gh.Milestone t ≠ "")
          then [gh.Sprintf_milestone (gh.Milestone t)] else []) ∧
    gateway.DueDateMS r
    = if gateway.SetTaskmasterDueDate og
         && gateway.isTaskMasterTask EqualFold og r
      then match gateway.deadline EqualFold Year Date (gateway.Tags r) with
           | Some (inr ms) => ms
           | _ => 0
           end
      else 0.
Proof.
  assert (∃ r, gateway.AddIssue EqualFold Year Date og t = Some r ∧
               gateway.ProjectName r = gateway.AssignedProject og ∧
               gateway.Note r = gh.HTMLURL t ∧
               gateway.DueDateMS r
               = if gateway.SetTaskmasterDueDate og
                    && gateway.isTaskMasterTask EqualFold og r
                 then match gateway.deadline EqualFold Year Date
                              (gateway.Tags r) with
                      | Some (inr ms) => ms
                      | _ => 0
                      end
                 else 0) as (r & Hr & Hproject & Hnote & Hdue).
  { unfold gateway.AddIssue.
    set (tags := if decide (gh.Milestone t ≠ "") then _ else _).
    clearbody tags.
    destruct (deadline_result tags) as (res & Hres & _).
    unfold gateway.isTaskMasterTask at 1. simpl gateway.Tags.
    destruct (gateway.SetTaskmasterDueDate og); simpl; [|by eexists].
    destruct (existsb _ tags) eqn:Htm.
    - rewrite Hres. destruct res as [e|ms]; eexists;
        (split; [reflexivity|]); unfold gateway.isTaskMasterTask; simpl;
        by rewrite Htm, Hres.
    - eexists. split; [reflexivity|]. unfold gateway.isTaskMasterTask.
      simpl. by rewrite Htm. }
  exists r. split; [done|]. split; [done|].
  split; [by apply (AddIssue_Name EqualFold Year Date og)|]. split; [done|].
  split; [by apply (AddIssue_Tags EqualFold Year Date og)|done].
Qed.

End deadlines.

(** ** From GitHub objects to items *)

Section github_items.

Variable TrimSpace : string → string.
Variable fetch : string → ghg.response.

Lemma Split_free (sep : ascii) (s : string) :
  free_of sep s → gostrings.Split s sep = [s].
Proof.
  induction s as [|c s IH]; [done|]. intros [Hc Hs]. simpl.
  by rewrite decide_False, IH.
Qed.

Lemma Split_nonempty (sep : ascii) (s : string) :
  gostrings.Split s sep ≠ [].
Proof.
  induction s as [|c s IH]; [done|]. simpl. case_decide; [done|].
  by destruct (gostrings.Split s sep).
Qed.

Lemma Split_app (sep : ascii) (s1 s2 : string) :
  gostrings.Split (s1 +:+ String sep s2) sep
  = gostrings.Split s1 sep ++ gostrings.Split s2 sep.
Proof.
  induction s1 as [|c s1 IH].
  - simpl. by rewrite decide_True.
  - rewrite string_app_cons. simpl. case_decide; [by rewrite IH|].
    rewrite IH. pose proof (Split_nonempty sep s1).
    by destruct (gostrings.Split s1 sep).
Qed.

Lemma length_Split (sep : ascii) (s : string) :
  length (gostrings.Split s sep) = S (ghg.count_byte sep s).
Proof.
  induction s as [|c s IH]; [done|]. simpl. case_decide; simpl.
  - by rewrite IH.
  - pose proof (Split_nonempty sep s).
    destruct (gostrings.Split s sep); [done|]. simpl in *. lia.
Qed.

Lemma index_in_range {A : Type} (a : list A) (i : Z) :
  0 ≤ i < Z.of_nat (length a) → is_Some (gostrings.index a i).
Proof.
  intros Hi. unfold gostrings.index. rewrite decide_True by lia.
  apply lookup_lt_is_Some. lia.
Qed.

(** X12 — The key of a notification is taken from the last four parts of
    its subject URL, so the loop of [GetNotifications] panics on a
    notification whose subject URL has fewer than three slashes (an empty
    URL among them), and only on those as far as the URL goes. *)
Theorem subject_parts_panics (url : string) :
  ghg.subject_parts url = None ↔ (ghg.count_byte "/" url < 3)%nat.
Proof.
  unfold ghg.subject_parts. pose proof (length_Split "/" url) as Hlen.
  set (parts := gostrings.Split url "/") in *.
  split.
  - intros Hnone. destruct (decide (ghg.count_byte "/" url < 3)%nat) as [|Hge];
      [done|]. exfalso.
    destruct (index_in_range parts (Z.of_nat (length parts) - 4)) as [? H4];
      [lia|].
    destruct (index_in_range parts (Z.of_nat (length parts) - 3)) as [? H3];
      [lia|].
    destruct (index_in_range parts (Z.of_nat (length parts) - 2)) as [? H2];
      [lia|].
    destruct (index_in_range parts (Z.of_nat (length parts) - 1)) as [? H1];
      [lia|].
    by rewrite H4, H3, H2, H1 in Hnone.
  - intros Hlt. unfold gostrings.index at 1.
    by rewrite decide_False by lia.
Qed.

Lemma subject_parts_of_url (base owner repo urlType subjectID : string) :
  free_of "/" owner → free_of "/" repo → free_of "/" urlType →
  free_of "/" subjectID →
  ghg.subject_parts
    (base +:+ "/" +:+ owner +:+ "/" +:+ repo +:+ "/" +:+ urlType
     +:+ "/" +:+ subjectID)
  = Some (owner, repo, urlType, subjectID).
Proof.
  intros Ho Hr Ht Hs. unfold ghg.subject_parts.
  change (base +:+ "/" +:+ owner +:+ "/" +:+ repo +:+ "/" +:+ urlType
          +:+ "/" +:+ subjectID)
    with (base +:+ String "/" (owner +:+ String "/" (repo +:+ String "/"
            (urlType +:+ String "/" subjectID)))).
  rewrite !Split_app.
  rewrite (Split_free _ owner), (Split_free _ repo), (Split_free _ urlType),
    (Split_free _ subjectID) by done.
  set (pre := gostrings.Split base "/"). rewrite !length_app. simpl length.
  unfold gostrings.index.
  replace (Z.to_nat (Z.of_nat (length pre + (1 + (1 + (1 + 1)))) - 4))
    with (length pre + 0)%nat by lia.
  replace (Z.to_nat (Z.of_nat (length pre + (1 + (1 + (1 + 1)))) - 3))
    with (length pre + 1)%nat by lia.
  replace (Z.to_nat (Z.of_nat (length pre + (1 + (1 + (1 + 1)))) - 2))
    with (length pre + 2)%nat by lia.
  replace (Z.to_nat (Z.of_nat (length pre + (1 + (1 + (1 + 1)))) - 1))
    with (length pre + 3)%nat by lia.
  rewrite !decide_True by lia.
  assert (∀ (l2 : list string) j, (pre ++ l2) !! (length pre + j)%nat = l2 !! j)
    as Hshift.
  { intros l2 j. rewrite lookup_app_r by lia. f_equal. lia. }
  by rewrite !Hshift.
Qed.

(** X13 — The key of a notification.  For a subject URL that ends in
    [/owner/repo/type/id]: a notification whose type is not issues,
    commits or pulls is skipped, before anything is fetched and whatever
    else it holds; for one of these types, when the page is fetched and
    the notification has an id, one item is appended, with the key
    [owner/repo#id], no labels and no milestone. *)
Theorem notification_step_key (items : list gh.GitHubItem)
    (n : github.Notification) (base owner repo urlType subjectID : string) :
  github.Subject_URL n
  = base +:+ "/" +:+ owner +:+ "/" +:+ repo +:+ "/" +:+ urlType
    +:+ "/" +:+ subjectID →
  free_of "/" owner → free_of "/" repo → free_of "/" urlType →
  free_of "/" subjectID →
  (urlType ∉ ["issues"; "commits"; "pulls"] →
   ghg.notification_step TrimSpace fetch items n = ghg.Done items) ∧
  (urlType ∈ ["issues"; "commits"; "pulls"] →
   ∀ html id,
     fetch (if decide (github.Subject_LatestCommentURL n ≠ "")
            then github.Subject_LatestCommentURL n
            else github.Subject_URL n) = ghg.Fetched html →
     github.ID n = Some id →
     ∃ item,
       ghg.notification_step TrimSpace fetch items n
       = ghg.Done (items ++ [item]) ∧
       gh.K item = owner +:+ "/" +:+ repo +:+ "#" +:+ subjectID ∧
       gh.Labels item = [] ∧ gh.Milestone item = "" ∧
       gh.HTMLURL item = html ∧ gh.ID item = id).
Proof.
  intros Hurl Ho Hr Ht Hs. unfold ghg.notification_step.
  assert (ghg.subject_parts (github.Subject_URL n)
          = Some (owner, repo, urlType, subjectID)) as ->.
  { rewrite Hurl. by apply subject_parts_of_url. }
  split.
  - intros Hty.
    rewrite !bool_decide_eq_false_2; [done|..]; intros ->; apply Hty;
      repeat constructor.
  - intros Hty html id Hfetch Hid.
    assert ((bool_decide (urlType = "issues")
             || bool_decide (urlType = "commits")
             || bool_decide (urlType = "pulls")) = true) as ->.
    { repeat (apply elem_of_cons in Hty as [->|Hty]; [done|]).
      by apply elem_of_nil in Hty. }
    simpl. rewrite Hfetch, Hid. eexists. split; [done|]. done.
Qed.

Lemma Split_pieces_free (sep : ascii) (s : string) :
  Forall (free_of sep) (gostrings.Split s sep).
Proof.
  induction s as [|c s IH]; [by repeat constructor|]. simpl.
  case_decide; [by constructor|].
  destruct (gostrings.Split s sep) as [|piece pieces].
  - by repeat constructor.
  - apply Forall_cons in IH as [Hp Hps]. by repeat constructor.
Qed.

Lemma index_elem_of {A : Type} (a : list A) (i : Z) (x : A) :
  gostrings.index a i = Some x → x ∈ a.
Proof.
  unfold gostrings.index. case_decide; [|done]. apply list_elem_of_lookup_2.
Qed.

Lemma subject_parts_free (url owner repo urlType subjectID : string) :
  ghg.subject_parts url = Some (owner, repo, urlType, subjectID) →
  free_of "/" owner ∧ free_of "/" repo ∧ free_of "/" subjectID.
Proof.
  unfold ghg.subject_parts.
  pose proof (Split_pieces_free "/" url) as Hfree.
  rewrite Forall_forall in Hfree.
  destruct (gostrings.index _ (_ - 4)) as [o|] eqn:H4; [|done].
  destruct (gostrings.index _ (_ - 3)) as [r|] eqn:H3; [|done].
  destruct (gostrings.index _ (_ - 2)) as [ty|] eqn:H2; [|done].
  destruct (gostrings.index _ (_ - 1)) as [id|] eqn:H1; [|done].
  intros [= <- <- <- <-].
  apply index_elem_of in H4, H3, H1. by repeat split; apply Hfree.
Qed.

Lemma notification_fold_stuck (ns : list github.Notification)
    (acc : ghg.outcome (list gh.GitHubItem)) items :
  foldl (λ acc n, match acc with
                  | ghg.Done items =>
                      ghg.notification_step TrimSpace fetch items n
                  | other => other
                  end) acc ns = ghg.Done items →
  ∃ items0, acc = ghg.Done items0.
Proof.
  revert acc. induction ns as [|n ns IH]; intros acc; simpl.
  - intros ->. by eexists.
  - intros Hfold. apply IH in Hfold as [items0 Hstep].
    destruct acc; try done. by eexists.
Qed.

(** X14 — What [GetNotifications] returns.  When the loop over the
    retrieved notifications ends without a panic or an error, there is at
    most one item per notification, and every item has no labels, no
    milestone, and a key of the form [owner/repo#id] in which none of the
    three parts has a slash. *)
Theorem GetNotifications_items_shape (ns : list github.Notification)
    (items : list gh.GitHubItem) :
  ghg.GetNotifications_items TrimSpace fetch ns = ghg.Done items →
  (length items ≤ length ns)%nat ∧
  Forall (λ item,
            gh.Labels item = [] ∧ gh.Milestone item = "" ∧
            ∃ owner repo id,
              gh.K item = owner +:+ "/" +:+ repo +:+ "#" +:+ id ∧
              free_of "/" owner ∧ free_of "/" repo ∧ free_of "/" id) items.
Proof.
  unfold ghg.GetNotifications_items.
  set (P := λ item : gh.GitHubItem,
              gh.Labels item = [] ∧ gh.Milestone item = "" ∧
              ∃ owner repo id,
                gh.K item = owner +:+ "/" +:+ repo +:+ "#" +:+ id ∧
                free_of "/" owner ∧ free_of "/" repo ∧ free_of "/" id).
  enough (∀ acc,
            Forall P acc →
            foldl (λ acc n, match acc with
                            | ghg.Done items =>
                                ghg.notification_step TrimSpace fetch items n
                            | other => other
                            end) (ghg.Done acc) ns = ghg.Done items →
            (length items ≤ length acc + length ns)%nat ∧ Forall P items)
    as Hgen.
  { intros Hfold. by apply (Hgen []) in Hfold. }
  induction ns as [|n ns IH]; intros acc Hacc; simpl.
  - intros [= <-]. split; [lia|done].
  - intros Hfold.
    destruct (notification_fold_stuck _ _ _ Hfold) as [items1 Hstep].
    rewrite Hstep in Hfold.
    assert ((length items1 ≤ length acc + 1)%nat ∧ Forall P items1)
      as [Hlen HP].
    { unfold ghg.notification_step in Hstep.
      destruct (ghg.subject_parts _) as [[[[owner repo] urlType] id]|] eqn:Hp;
        [|done].
      apply subject_parts_free in Hp as (Ho & Hr & Hid).
      destruct (negb _); [injection Hstep as <-; split; [lia|done]|].
      destruct (fetch _); try done.
      destruct (github.ID n) as [nid|]; [|done].
      injection Hstep as <-. rewrite length_app. simpl. split; [lia|].
      apply Forall_app. split; [done|]. constructor; [|done].
      unfold P. simpl. repeat split. by exists owner, repo, id. }
    apply IH in Hfold as [Hlen' HP']; [|done]. split; [lia|done].
Qed.

End github_items.

(** ** An issue from GitHub to its task and back *)

Section issue_round_trip.

Variable TrimSpace : string → string.
Variable EqualFold : string → string → bool.
Variable Year : Z.
Variable Date : Z → Z → Z → Z → Z → Z → Z → Z.

Lemma free_of_app (sep : ascii) (s1 s2 : string) :
  free_of sep (s1 +:+ s2) ↔ free_of sep s1 ∧ free_of sep s2.
Proof.
  induction s1 as [|c s1 IH]; [simpl; tauto|].
  rewrite string_app_cons. simpl. rewrite IH. tauto.
Qed.

Lemma string_of_uint_free (d : Decimal.uint) :
  free_of " " (NilEmpty.string_of_uint d).
Proof. induction d; simpl; (done || by split). Qed.

Lemma Sprintf_d_free (n : Z) : free_of " " (ghg.Sprintf_d n).
Proof.
  unfold ghg.Sprintf_d, NilZero.string_of_int, NilZero.string_of_uint.
  destruct (Z.to_int n) as [d|d].
  - destruct d; try apply string_of_uint_free. by split.
  - split; [done|]. destruct d; try apply string_of_uint_free. by split.
Qed.

Lemma label_names_spec (ls : list (option string)) (acc : list string) :
  match ghg.label_names acc ls with
  | Some names => ls = Some <$> drop (length acc) names ∧
                  take (length acc) names = acc
  | None => None ∈ ls
  end.
Proof.
  revert acc. induction ls as [|[name|] ls IH]; intros acc; simpl.
  - by rewrite drop_all, take_ge.
  - specialize (IH (acc ++ [name])).
    destruct (ghg.label_names (acc ++ [name]) ls) as [names|].
    + destruct IH as [Hls Hacc]. rewrite length_app in Hls, Hacc.
      simpl in Hls, Hacc.
      assert (names = (acc ++ [name]) ++ drop (length acc + 1) names)
        as Hnames.
      { by rewrite <- Hacc at 1; rewrite take_drop. }
      split.
      * rewrite Hnames at 1. rewrite <- (assoc_L (++)), drop_app_length.
        simpl. by rewrite Hls.
      * rewrite Hnames, <- (assoc_L (++)). by rewrite take_app_length.
    + by right.
  - by left.
Qed.

(** X15 — An issue is found again under its key.  The step that turns a
    retrieved issue or pull request into an item panics exactly when a
    label of the issue has no name.  Otherwise it appends one item whose
    key is the full name of the repository, [#] and the number in
    decimal; when the full name has no space, a task named as [AddIssue],
    [AddPR] or [AddAuthoredPR] names the task of that item has the key of
    the item. *)
Theorem issue_task_found_again (items : list gh.GitHubItem)
    (issue : github.Issue) :
  (ghg.issue_step TrimSpace items issue = None ↔
   None ∈ github.Labels issue) ∧
  (ghg.pr_step TrimSpace items issue = None ↔ None ∈ github.Labels issue) ∧
  ∀ items',
    ghg.issue_step TrimSpace items issue = Some items' ∨
    ghg.pr_step TrimSpace items issue = Some items' →
    ∃ item,
      items' = items ++ [item] ∧
      Key item = github.Repository_FullName issue +:+ "#"
                 +:+ ghg.Sprintf_d (github.Number issue) ∧
      (Some <$> gh.Labels item) = github.Labels issue ∧
      (free_of " " (github.Repository_FullName issue) →
       ∀ og r c,
         gateway.AddIssue EqualFold Year Date og item = Some r ∨
         r = gateway.AddPR og item ∨ r = gateway.AddAuthoredPR og item →
         omnifocus.Name c = gateway.Name r →
         Key c = Key item).
Proof.
  unfold ghg.issue_step, ghg.pr_step.
  pose proof (label_names_spec (github.Labels issue) []) as Hnames.
  destruct (ghg.label_names [] (github.Labels issue)) as [names|].
  - destruct Hnames as [Hls _]. simpl in Hls. rewrite drop_0 in Hls.
    split; [|split].
    + split; [done|]. rewrite Hls. intros (? & ? & ?)%list_elem_of_fmap. done.
    + split; [done|]. rewrite Hls. intros (? & ? & ?)%list_elem_of_fmap. done.
    + intros items' Hstep.
      assert (∃ item, items' = items ++ [item] ∧
                gh.K item = ghg.Sprintf_issue_key
                              (github.Repository_FullName issue)
                              (github.Number issue) ∧
                gh.Labels item = names) as (item & -> & HK & Hlabels).
      { destruct Hstep as [[= <-]|[= <-]]; by eexists. }
      exists item. split; [done|]. split; [done|].
      split; [by rewrite Hlabels|].
      intros Hfree og r c Hr Hname.
      apply (Key_of_created_name c (gh.Key item) (gh.Title item)).
      * rewrite Hname. destruct Hr as [Hr | [ -> | -> ] ]; [|done..].
        by apply (AddIssue_Name EqualFold Year Date og).
      * unfold gh.Key. rewrite HK. unfold ghg.Sprintf_issue_key.
        apply free_of_app. split; [done|].
        change ("#" +:+ ghg.Sprintf_d (github.Number issue))
          with (String "#" (ghg.Sprintf_d (github.Number issue))).
        split; [done|]. apply Sprintf_d_free.
  - split; [done|]. split; [done|]. intros items' [?|?]; done.
Qed.

End issue_round_trip.

(** ** The tasks the script returns *)

Section script.

(** Induction on a task, with the property known for its child tasks. *)
Lemma Task_induction (P : jxa.Task → Prop) :
  (∀ i n c ts children,
     Forall P children → P (jxa.MkTask i n c ts children)) →
  ∀ t, P t.
Proof.
  intros Hstep. fix IH 1. intros [i n c ts children]. apply Hstep.
  induction children as [|child children IHc]; constructor; [apply IH|done].
Qed.

Lemma forEach_concat (f : jxa.Task → list jxa.Task)
    (acc ts : list jxa.Task) :
  foldl (λ all t, all ++ f t) acc ts = acc ++ flat_map f ts.
Proof.
  revert acc. induction ts as [|t ts IH]; intros acc; simpl.
  - by rewrite app_nil_r.
  - by rewrite IH, <- app_assoc.
Qed.

Lemma getChildTasks_unfold (t : jxa.Task) :
  jxa.getChildTasks t
  = jxa.tasks t ++ flat_map jxa.getChildTasks (jxa.tasks t).
Proof.
  destruct t as [i n c ts children]. simpl.
  generalize children at 1 3 as acc. 
  induction children as [|child children IH]; intros acc; simpl.
  - by rewrite app_nil_r.
  - by rewrite IH, <- app_assoc.
Qed.

Lemma flat_map_cons_perm {A : Type} (f : A → list A) (l : list A) :
  flat_map (λ x, x :: f x) l ≡ₚ l ++ flat_map f l.
Proof.
  induction l as [|x l IH]; simpl; [done|].
  rewrite IH. apply perm_skip.
  rewrite !(assoc_L (++)). apply Permutation_app_tail, Permutation_app_comm.
Qed.

Lemma flat_map_perm_ext {A B : Type} (f g : A → list B) (l : list A) :
  Forall (λ x, f x ≡ₚ g x) l → flat_map f l ≡ₚ flat_map g l.
Proof.
  induction 1 as [|x l Hx _ IH]; simpl; [done|]. by rewrite Hx, IH.
Qed.

Lemma subtree_unfold (l : list jxa.Task) :
  flat_map jxa.subtree l
  ≡ₚ l ++ flat_map (λ t, flat_map jxa.subtree (jxa.tasks t)) l.
Proof.
  rewrite <- flat_map_cons_perm. apply flat_map_perm_ext, Forall_forall.
  by intros [i n c ts children] _.
Qed.

Lemma getChildTasks_subtree (t : jxa.Task) :
  jxa.getChildTasks t ≡ₚ flat_map jxa.subtree (jxa.tasks t).
Proof.
  induction t as [i n c ts children IH] using Task_induction.
  rewrite getChildTasks_unfold. simpl. rewrite subtree_unfold.
  apply Permutation_app_head. by apply flat_map_perm_ext.
Qed.

Lemma project_tasks_subtree (top : list jxa.Task) :
  jxa.project_tasks top ≡ₚ flat_map jxa.subtree top.
Proof.
  unfold jxa.project_tasks. rewrite forEach_concat, subtree_unfold.
  apply Permutation_app_head, flat_map_perm_ext, Forall_forall.
  intros t _. apply getChildTasks_subtree.
Qed.

(** X16 — Every task of the project is listed once.  The list the script
    filters holds the tasks of the project and all tasks below them, at
    any depth, each as often as it occurs in the tree. *)
Theorem project_tasks_complete (top : list jxa.Task) :
  jxa.project_tasks top ≡ₚ flat_map jxa.subtree top.
Proof. exact (project_tasks_subtree top). Qed.

(** X17 — What the script returns.  An object is returned exactly when
    it is the record of a task of the project tree that is not completed
    and that has, for every tag of the query, a tag with the same id;
    whether the tasks above it are completed or tagged plays no part.
    Every returned object says that the task is not completed. *)
Theorem tasksForProjectWithTag_spec (top : list jxa.Task)
    (ofTags : list jxa.Tag) :
  (∀ out,
     out ∈ jxa.tasksForProjectWithTag top ofTags ↔
     ∃ task,
       task ∈ flat_map jxa.subtree top ∧
       jxa.completed task = false ∧
       (∀ q, q ∈ ofTags →
             ∃ tag, tag ∈ jxa.tags task ∧ jxa.tag_id tag = jxa.tag_id q) ∧
       out = jxa.record task) ∧
  Forall (λ out, omnifocus.Completed out = false)
    (jxa.tasksForProjectWithTag top ofTags).
Proof.
  assert (∀ task,
            task ∈ List.filter (jxa.has_all_tags ofTags)
                     (List.filter
                        (λ task, bool_decide (jxa.completed task = false))
                        (jxa.project_tasks top)) ↔
            task ∈ flat_map jxa.subtree top ∧
            jxa.completed task = false ∧
            (∀ q, q ∈ ofTags →
                  ∃ tag, tag ∈ jxa.tags task ∧
                         jxa.tag_id tag = jxa.tag_id q)) as Hfilter.
  { intros task. rewrite !list_elem_of_In, !List.filter_In.
    rewrite <- !list_elem_of_In, project_tasks_subtree.
    rewrite bool_decide_eq_true. unfold jxa.has_all_tags.
    rewrite forallb_forall.
    assert ((∀ x, In x ofTags →
                  existsb (λ tag, bool_decide (jxa.tag_id tag = jxa.tag_id x))
                    (jxa.tags task) = true) ↔
            (∀ q, q ∈ ofTags →
                  ∃ tag, tag ∈ jxa.tags task ∧
                         jxa.tag_id tag = jxa.tag_id q)) as ->; [|tauto].
    split; intros Hall q Hq.
    - apply list_elem_of_In, Hall, existsb_exists in Hq as (tag & Hin & Heq).
      exists tag. split; [by apply list_elem_of_In|].
      by apply bool_decide_eq_true in Heq.
    - apply list_elem_of_In, Hall in Hq as (tag & Hin & Heq).
      apply existsb_exists. exists tag.
      split; [by apply list_elem_of_In|]. by apply bool_decide_eq_true. }
  split.
  - intros out. unfold jxa.tasksForProjectWithTag.
    rewrite list_elem_of_fmap. split.
    + intros (task & -> & Hin). exists task. apply Hfilter in Hin. tauto.
    + intros (task & ? & ? & ? & ->). exists task. split; [done|].
      by apply Hfilter.
  - apply Forall_forall. intros out.
    unfold jxa.tasksForProjectWithTag. rewrite list_elem_of_fmap.
    intros (task & -> & Hin). apply Hfilter in Hin. simpl. tauto.
Qed.

End script.

(** ** More on the keyed-collection builder *)

Section toSet_more.

Context {T : Type} `{!Keyed T}.

Lemma filter_no_key (l : list (string * T)) (k : string) :
  Forall (λ kv, Key kv.2 = kv.1) l → k ∉ l.*1 →
  filter (λ e, Key e = k) l.*2 = [].
Proof.
  induction 1 as [|[k' x] l Hx _ IH]; [done|]. simpl in *.
  intros Hk. apply not_elem_of_cons in Hk as [Hne Hk].
  rewrite filter_cons_False by congruence. by apply IH.
Qed.

(** X18 — Building and enumerating are inverse.  For a map that stores
    every item under its key, [toSet] applied to the items of the map, in
    any order of enumeration, gives the map back: every such map is a
    result of [toSet]. *)
Theorem toSet_of_entries (m : gmap string T) (l : list (string * T)) :
  keyed_by_Key m → l ≡ₚ map_to_list m → toSet l.*2 = m.
Proof.
  intros Hm Hl. apply map_eq. intros k. rewrite toSet_lookup.
  assert (Forall (λ kv, Key kv.2 = kv.1) l) as Hkeys.
  { apply Forall_forall. intros [k' x] Hin. simpl.
    apply Hm. apply elem_of_map_to_list. by rewrite <- Hl. }
  assert (NoDup l.*1) as Hnd.
  { rewrite Hl. apply NoDup_fst_map_to_list. }
  destruct (m !! k) as [x|] eqn:Hk.
  - assert ((k, x) ∈ l) as Hin.
    { rewrite Hl. by apply elem_of_map_to_list. }
    apply list_elem_of_split in Hin as (l1 & l2 & ->).
    rewrite fmap_app, fmap_cons in Hnd.
    apply NoDup_app in Hnd as (_ & Hdisj & Hnd2).
    apply NoDup_cons in Hnd2 as [Hk2 _].
    apply Forall_app in Hkeys as [Hk1 Hk2'].
    apply Forall_cons in Hk2' as [Hx Hk2'].
    rewrite fmap_app, fmap_cons, filter_app, filter_cons_True by done.
    rewrite !filter_no_key; [done|done..| |done|].
    + done.
    + intros Hin. apply (Hdisj k Hin). simpl. apply list_elem_of_here.
  - rewrite filter_no_key; [done..|].
    intros ((k' & x) & -> & Hin)%list_elem_of_fmap. simpl in Hk.
    rewrite Hl in Hin. apply elem_of_map_to_list in Hin. congruence.
Qed.

Lemma last_app_cons_shadow {A : Type} (l1 l2 : list A) (x : A) :
  l2 ≠ [] → last (l1 ++ x :: l2) = last (l1 ++ l2).
Proof.
  intros Hl2. rewrite !last_app.
  destruct l2 as [|y l2]; [done|]. by rewrite last_cons_cons.
Qed.

(** X19 — An element is invisible when a later one has its key: the map
    built from the slice is the map built from the slice without that
    element, and so is everything [Delta] computes from it. *)
Theorem toSet_shadowed (l1 l2 : list T) (x : T) :
  Key x ∈ Key <$> l2 → toSet (l1 ++ x :: l2) = toSet (l1 ++ l2).
Proof.
  intros Hin. apply map_eq. intros k. rewrite !toSet_lookup, !filter_app.
  destruct (decide (Key x = k)) as [<-|Hne].
  - rewrite filter_cons_True by done. apply last_app_cons_shadow.
    apply list_elem_of_fmap in Hin as (y & Hy & Hin). intros Hnil.
    exact (filter_nil_not_elem_of (λ e, Key e = Key x) l2 y Hnil
             (eq_sym Hy) Hin).
  - by rewrite filter_cons_False.
Qed.

End toSet_more.

(** ** The further properties at sample values *)

Section more_instances.

Import scenario.

Lemma Delta_extends_exact_witness :
  Forall (λ kv : string * gh.GitHubItem,
            Forall (λ t, strings.ToLower_ascii t = t) (GetTags kv.2))
    (map_to_list (toSet [issue1_urgent])) ∧
  (∀ k c, toSet [task1] !! k = Some c →
          Forall (λ t, strings.ToLower_ascii t = t) (GetTags c)) ∧
  run (toSet [issue1_urgent]) (toSet [task1]) []
  = exact_tags.Delta (map_to_list (toSet [issue1_urgent]))
      (map_to_list (toSet [task1])) (toSet [issue1_urgent]) (toSet [task1]).
Proof.
  assert (Forall (λ kv : string * gh.GitHubItem,
                    Forall (λ t, strings.ToLower_ascii t = t) (GetTags kv.2))
            (map_to_list (toSet [issue1_urgent]))) as Hd.
  { vm_compute. repeat constructor. }
  assert (∀ k c, toSet [task1] !! k = Some c →
                 Forall (λ t, strings.ToLower_ascii t = t) (GetTags c))
    as Hc.
  { intros k c [_ ->]%toSet_singleton_lookup. repeat constructor. }
  split; [exact Hd|]. split; [exact Hc|].
  exact (Delta_extends_exact strings.ToLower_ascii _ _ _ _ Hd Hc).
Defined.

Lemma membership_sublist_Delta_witness :
  sublist (run_membership desired_two current_two)
    (run desired_two current_two []) ∧
  run (toSet [issue1_Bug]) (toSet [task1]) []
  = run_membership (toSet [issue1_Bug]) (toSet [task1]).
Proof.
  split.
  - exact (proj1 (membership_sublist_Delta strings.ToLower_ascii
                    (map_to_list desired_two) (map_to_list current_two)
                    desired_two current_two [])).
  - apply (proj2 (membership_sublist_Delta strings.ToLower_ascii
                    (map_to_list (toSet [issue1_Bug]))
                    (map_to_list (toSet [task1]))
                    (toSet [issue1_Bug]) (toSet [task1]) [])).
    intros k v c Hin Hc. apply elem_of_map_to_list in Hin.
    apply toSet_singleton_lookup in Hin as [_ ->].
    apply toSet_singleton_lookup in Hc as [_ ->]. reflexivity.
Defined.

Lemma Delta_payloads_witness :
  Delta_returns strings.ToLower_ascii desired_two current_two []
    (run desired_two current_two []) ∧
  Op Add (OfDesired issue3) ∈ run desired_two current_two [] ∧
  ((OpType (Op Add (OfDesired issue3)) = Add ∧
    ∃ k v, desired_two !! k = Some v
           ∧ Item (Op Add (OfDesired issue3)) = OfDesired v) ∨
   (OpType (Op Add (OfDesired issue3)) = Remove ∧
    ∃ k c, current_two !! k = Some c
           ∧ Item (Op Add (OfDesired issue3)) = OfCurrent c)).
Proof.
  pose proof (returns_run desired_two current_two []) as Hr.
  assert (Op Add (OfDesired issue3) ∈ run desired_two current_two [])
    as Hin.
  { vm_compute. repeat (apply list_elem_of_here || apply list_elem_of_further). }
  split; [exact Hr|]. split; [exact Hin|].
  exact (Delta_payloads strings.ToLower_ascii desired_two current_two []
           _ _ Hr Hin).
Defined.

Lemma Delta_idempotent_witness :
  keyed_by_Key desired_two ∧ keyed_by_Key current_two ∧
  Delta_returns strings.ToLower_ascii desired_two current_two ["assigned"]
    (run desired_two current_two ["assigned"]) ∧
  (∀ k v, desired_two !! k = Some v →
          Forall (λ t, strings.ToLower_ascii t
                       ∉ toLower strings.ToLower_ascii ["assigned"])
            (GetTags v)) ∧
  Delta_returns strings.ToLower_ascii desired_two
    (apply_ops (initial current_two) (run desired_two current_two ["assigned"]))
    ["assigned"] [] ∧
  ([] : list (Operation gh.GitHubItem
                (Boxed gh.GitHubItem omnifocus.Task))) = [].
Proof.
  assert (keyed_by_Key desired_two) as Hd by apply toSet_keyed.
  assert (keyed_by_Key current_two) as Hc by apply toSet_keyed.
  pose proof (returns_run desired_two current_two ["assigned"]) as Hr.
  assert (∀ k v, desired_two !! k = Some v →
                 Forall (λ t, strings.ToLower_ascii t
                              ∉ toLower strings.ToLower_ascii ["assigned"])
                   (GetTags v)) as Hfree.
  { intros k v Hv.
    assert (v = issue1_urgent ∨ v = issue3) as [->| ->].
    { destruct (decide (k = "a/b#1")) as [->|H1];
        [left; by injection Hv|].
      destruct (decide (k = "a/b#3")) as [->|H3];
        [right; by injection Hv|].
      unfold desired_two, toSet in Hv. simpl in Hv.
      by rewrite !lookup_insert_ne, lookup_empty in Hv. }
    - repeat constructor; vm_compute; intros Hin;
        repeat (apply elem_of_cons in Hin as [Hin|Hin]; [discriminate|]);
        by apply elem_of_nil in Hin.
    - repeat constructor; vm_compute; intros Hin;
        repeat (apply elem_of_cons in Hin as [Hin|Hin]; [discriminate|]);
        by apply elem_of_nil in Hin. }
  assert (Delta_returns strings.ToLower_ascii desired_two
            (apply_ops (initial current_two)
               (run desired_two current_two ["assigned"]))
            ["assigned"] []) as Hagain.
  { eexists _, _. split; [reflexivity|]. split; [reflexivity|].
    vm_compute. reflexivity. }
  split; [exact Hd|]. split; [exact Hc|]. split; [exact Hr|].
  split; [exact Hfree|]. split; [exact Hagain|].
  exact (Delta_idempotent strings.ToLower_ascii desired_two current_two
           ["assigned"] _ _ Hd Hc Hr Hfree Hagain).
Defined.

Lemma created_task_Key_witness :
  (gateway.AddIssue samples.EqualFold samples.Year samples.Date samples.og
     issue1 = Some (gateway.AddPR samples.og issue1) ∨
   gateway.AddPR samples.og issue1 = gateway.AddPR samples.og issue1 ∨
   gateway.AddPR samples.og issue1 = gateway.AddAuthoredPR samples.og issue1 ∨
   gateway.AddPR samples.og issue1
   = gateway.AddNotification samples.og issue1) ∧
  omnifocus.Name (samples.held (gateway.AddPR samples.og issue1))
  = gateway.Name (gateway.AddPR samples.og issue1) ∧
  (Key (samples.held (gateway.AddPR samples.og issue1)) = Key issue1
   ↔ free_of " " (Key issue1)).
Proof.
  assert (gateway.AddIssue samples.EqualFold samples.Year samples.Date
            samples.og issue1 = Some (gateway.AddPR samples.og issue1) ∨
          gateway.AddPR samples.og issue1 = gateway.AddPR samples.og issue1 ∨
          gateway.AddPR samples.og issue1
          = gateway.AddAuthoredPR samples.og issue1 ∨
          gateway.AddPR samples.og issue1
          = gateway.AddNotification samples.og issue1) as Hr.
  { right. left. reflexivity. }
  split; [exact Hr|]. split; [reflexivity|].
  exact (created_task_Key samples.EqualFold samples.Year samples.Date
           samples.og issue1 (gateway.AddPR samples.og issue1)
           (samples.held (gateway.AddPR samples.og issue1)) Hr eq_refl).
Defined.

Lemma created_task_stable_witness :
  on_ignore_list strings.ToLower_ascii ["GitHub"; "Review"]
    (gateway.AppTag samples.og) ∧
  on_ignore_list strings.ToLower_ascii ["GitHub"; "Review"]
    (gateway.ReviewTag samples.og) ∧
  Forall (λ x, ¬ on_ignore_list strings.ToLower_ascii ["GitHub"; "Review"] x)
    (gh.GetTags issue1) ∧
  ops_for "a/b#1"
    (run (toSet [issue1])
       (toSet [samples.held (gateway.AddPR samples.og issue1)])
       ["GitHub"; "Review"]) = [].
Proof.
  assert (on_ignore_list strings.ToLower_ascii ["GitHub"; "Review"]
            (gateway.AppTag samples.og)) as Happ.
  { vm_compute. apply list_elem_of_here. }
  assert (on_ignore_list strings.ToLower_ascii ["GitHub"; "Review"]
            (gateway.ReviewTag samples.og)) as Htype.
  { vm_compute. apply list_elem_of_further, list_elem_of_here. }
  assert (Forall (λ x, ¬ on_ignore_list strings.ToLower_ascii
                         ["GitHub"; "Review"] x) (gh.GetTags issue1))
    as Hfree.
  { repeat constructor; vm_compute; intros Hin;
      repeat (apply elem_of_cons in Hin as [Hin|Hin]; [discriminate|]);
      by apply elem_of_nil in Hin. }
  split; [exact Happ|]. split; [exact Htype|]. split; [exact Hfree|].
  apply (created_task_stable strings.ToLower_ascii samples.EqualFold
           samples.Year samples.Date samples.og issue1
           (gateway.AddPR samples.og issue1)
           (samples.held (gateway.AddPR samples.og issue1))
           (gateway.ReviewTag samples.og)
           (toSet [issue1])
           (toSet [samples.held (gateway.AddPR samples.og issue1)])
           ["GitHub"; "Review"]).
  - right. left. repeat split.
  - reflexivity.
  - exact Happ.
  - exact Htype.
  - exact Hfree.
  - apply toSet_keyed.
  - apply toSet_keyed.
  - reflexivity.
  - reflexivity.
  - apply returns_run.
Defined.


Lemma deadline_time_range_witness :
  Forall (gateway.passed_over samples.EqualFold) ["bug"] ∧
  strconv.Atoi "SEARC" = None ∧
  gateway.deadline samples.EqualFold samples.Year samples.Date
    (["bug"] ++ ("SEARC" +:+ "H") :: ["2Q"])
  = Some (inl gateway.ErrAtoi) ∧
  strconv.Atoi "2" = Some 2 ∧
  gateway.deadline samples.EqualFold samples.Year samples.Date
    (["bug"] ++ ("2" +:+ "Q") :: ["Jan"])
  = Some (inr (samples.Date samples.Year 7 1 (-1) (-1) (-1) (-1))).
Proof.
  assert (Forall (gateway.passed_over samples.EqualFold) ["bug"]) as Hpre.
  { repeat constructor. }
  split; [exact Hpre|]. split; [reflexivity|]. split.
  - exact (proj1 (deadline_time_range samples.EqualFold samples.Year
                    samples.Date ["bug"] ["2Q"] "SEARC" "H" Hpre
                    (or_introl eq_refl)) eq_refl).
  - split; [reflexivity|].
    apply (proj2 (deadline_time_range samples.EqualFold samples.Year
                    samples.Date ["bug"] ["Jan"] "2" "Q" Hpre
                    (or_intror (or_introl eq_refl))) 2 eq_refl).
    lia.
Defined.

Lemma deadline_month_witness :
  gateway.isTimeRange "feb" = false ∧
  gateway.arrowMonthAbbrv !! 1%nat = Some "Feb" ∧
  samples.EqualFold "Feb" "feb" = true ∧
  gateway.deadline samples.EqualFold samples.Year samples.Date
    ([] ++ "feb" :: ["2Q"])
  = Some (inr (samples.Date samples.Year 2 1 (-1) (-1) (-1) (-1))).
Proof.
  split; [reflexivity|]. split; [reflexivity|]. split; [reflexivity|].
  apply (deadline_month samples.EqualFold samples.Year samples.Date
           [] ["2Q"] "feb" "Feb" 1).
  - constructor.
  - reflexivity.
  - reflexivity.
  - reflexivity.
  - intros j m' Hj Hm'. assert (j = 0%nat) as -> by lia.
    injection Hm' as <-. reflexivity.
Defined.

Lemma notification_step_key_witness :
  github.Subject_URL samples.notification
  = "https://api.github.com/repos" +:+ "/" +:+ "a" +:+ "/" +:+ "b"
    +:+ "/" +:+ "issues" +:+ "/" +:+ "1" ∧
  ∃ item,
    ghg.notification_step samples.TrimSpace samples.fetch []
      samples.notification = ghg.Done ([] ++ [item]) ∧
    gh.K item = "a" +:+ "/" +:+ "b" +:+ "#" +:+ "1" ∧
    gh.Labels item = [] ∧ gh.Milestone item = "" ∧
    gh.HTMLURL item = "https://github.com/a/b/issues/1" ∧
    gh.ID item = "42".
Proof.
  split; [reflexivity|].
  apply (proj2 (notification_step_key samples.TrimSpace samples.fetch []
                  samples.notification "https://api.github.com/repos"
                  "a" "b" "issues" "1" eq_refl
                  ltac:(repeat split; discriminate)
                  ltac:(repeat split; discriminate)
                  ltac:(repeat split; discriminate)
                  ltac:(repeat split; discriminate))).
  - apply list_elem_of_here.
  - reflexivity.
  - reflexivity.
Defined.

Lemma GetNotifications_items_shape_witness :
  ∃ items,
    ghg.GetNotifications_items samples.TrimSpace samples.fetch
      [samples.notification] = ghg.Done items ∧
    (length items ≤ 1)%nat ∧
    Forall (λ item,
              gh.Labels item = [] ∧ gh.Milestone item = "" ∧
              ∃ owner repo id,
                gh.K item = owner +:+ "/" +:+ repo +:+ "#" +:+ id ∧
                free_of "/" owner ∧ free_of "/" repo ∧ free_of "/" id) items.
Proof.
  eexists. split; [reflexivity|].
  exact (GetNotifications_items_shape samples.TrimSpace samples.fetch
           [samples.notification] _ eq_refl).
Defined.

Lemma issue_task_found_again_witness :
  ∃ item,
    ghg.issue_step samples.TrimSpace [] samples.issue = Some ([] ++ [item]) ∧
    free_of " " (github.Repository_FullName samples.issue) ∧
    Key (samples.held (gateway.AddPR samples.og item)) = Key item ∧
    Key item = "a/b#1".
Proof.
  destruct (proj2 (proj2 (issue_task_found_again samples.TrimSpace
                            samples.EqualFold samples.Year samples.Date
                            [] samples.issue)) _ (or_introl eq_refl))
    as (item & Hitems & HK & _ & Hround).
  assert (free_of " " (github.Repository_FullName samples.issue)) as Hfree.
  { repeat split; discriminate. }
  exists item. split; [by rewrite <- Hitems|]. split; [exact Hfree|].
  split; [|exact HK].
  exact (Hround Hfree samples.og (gateway.AddPR samples.og item)
           (samples.held (gateway.AddPR samples.og item))
           (or_intror (or_introl eq_refl)) eq_refl).
Defined.

Lemma toSet_of_entries_witness :
  keyed_by_Key desired_two ∧
  map_to_list desired_two ≡ₚ map_to_list desired_two ∧
  toSet (map_to_list desired_two).*2 = desired_two.
Proof.
  assert (keyed_by_Key desired_two) as Hd by apply toSet_keyed.
  split; [exact Hd|]. split; [reflexivity|].
  exact (toSet_of_entries desired_two (map_to_list desired_two) Hd
           (reflexivity _)).
Defined.

Lemma toSet_shadowed_witness :
  Key task1 ∈ Key <$> [task2; task1_later] ∧
  toSet ([] ++ task1 :: [task2; task1_later])
  = toSet ([] ++ [task2; task1_later]).
Proof.
  assert (Key task1 ∈ Key <$> [task2; task1_later]) as Hin.
  { apply list_elem_of_further, list_elem_of_here. }
  split; [exact Hin|].
  exact (toSet_shadowed [] [task2; task1_later] task1 Hin).
Defined.

Lemma Delta_empty_iff_witness :
  Delta_returns strings.ToLower_ascii (toSet [issue1_Bug]) (toSet [task1]) []
    (run (toSet [issue1_Bug]) (toSet [task1]) []) ∧
  (run (toSet [issue1_Bug]) (toSet [task1]) [] = [] ↔
   dom (toSet [issue1_Bug]) = dom (toSet [task1]) ∧
   ∀ k v c, toSet [issue1_Bug] !! k = Some v → toSet [task1] !! k = Some c →
            vTags strings.ToLower_ascii v
            = cTags strings.ToLower_ascii
                (toLower strings.ToLower_ascii []) c).
Proof.
  pose proof (returns_run (toSet [issue1_Bug]) (toSet [task1]) []) as Hr.
  split; [exact Hr|].
  exact (Delta_empty_iff strings.ToLower_ascii _ _ _ _ Hr).
Defined.

End more_instances.
